(** * mylib: the callback registries, [c_divide] and the opaque connection

    A shallow embedding of [c_src/mylib.c] and [c_src/mylib.h].

    - A C [int] / [int32_t] is a [Z] in the range [INT32_MIN .. INT32_MAX];
      [x++] stores [wrap32 (x + 1)], which is [x + 1] below [INT32_MAX]
      (C leaves the increment of [INT32_MAX] undefined).
    - A function pointer or a [void*] is the [Z] of its address, [NULL] is 0.
    - A C string is the [string] of its characters before the terminator;
      a [const char*] argument that may be [NULL] is an [option string].
    - The file-scope arrays are lists holding their entries in index order;
      [a[i]] is [a !! i] and [a[i] = x] is [<[i:=x]> a].
    - A [for (i = 0; i < MAX_CALLBACKS; i++)] loop is a function recursive on
      the number of iterations left, carrying [i]. *)

From Stdlib Require Import ZArith String Ascii Sorted.
From stdpp Require Import base tactics numbers list strings pretty.

Local Open Scope Z_scope.

(** ** Machine integers and pointers *)

Definition INT32_MIN : Z := - 2 ^ 31.
Definition INT32_MAX : Z := 2 ^ 31 - 1.

Definition wrap32 (z : Z) : Z := (z + 2 ^ 31) mod 2 ^ 32 - 2 ^ 31.

Definition in_int32 (z : Z) : Prop := INT32_MIN <= z <= INT32_MAX.

Definition NULL : Z := 0.

(** [#define MAX_CALLBACKS 16] *)
Definition MAX_CALLBACKS : nat := 16.

(** The error codes of [mylib.h]. *)
Definition SUCCESS : Z := 0.
Definition ERROR_NULL_POINTER : Z := -1.
Definition ERROR_INVALID_INPUT : Z := -2.
Definition ERROR_COMPUTATION_FAILED : Z := -3.

(** A call through a callback pointer, [fn(arg, val)].  What the callee does
    is outside the library; the model records the calls in the order the
    library makes them, and takes the callee not to call back into it. *)
Record call := Call { fn : Z; arg : Z; val : Z }.

(** A loop of calls either gets to its end, or reaches a call through a null
    function pointer, after which C defines nothing; [calls] are the calls
    made before that point. *)
Inductive outcome :=
  | Returned (calls : list call)
  | NullCall (calls : list call).

Definition after_call (c : call) (o : outcome) : outcome :=
  match o with
  | Returned cs => Returned (c :: cs)
  | NullCall cs => NullCall (c :: cs)
  end.

(** A call of a [simple_callback_t], [fn(val)], and the outcome of a loop of
    such calls. *)
Record simple_call := SimpleCall { sfn : Z; sval : Z }.

Inductive simple_outcome :=
  | SimpleReturned (calls : list simple_call)
  | SimpleNullCall (calls : list simple_call).

Definition after_simple_call (c : simple_call) (o : simple_outcome) : simple_outcome :=
  match o with
  | SimpleReturned cs => SimpleReturned (c :: cs)
  | SimpleNullCall cs => SimpleNullCall (c :: cs)
  end.

(** ** Pattern 3: simple callbacks *)
Module Simple.

Record registry := Registry {
  simple_callbacks : list Z;
  simple_callback_count : Z
}.

(** The count is an index into the array: it is never negative. *)
Definition register_simple_callback (callback : Z) (r : registry) : registry :=
  if decide (simple_callback_count r < Z.of_nat MAX_CALLBACKS ∧ callback ≠ NULL)
  then {| simple_callbacks :=
            <[Z.to_nat (simple_callback_count r) := callback]> (simple_callbacks r);
          simple_callback_count := wrap32 (simple_callback_count r + 1) |}
  else r.

(** Objects of static storage duration start out zeroed. *)
Definition init : registry :=
  {| simple_callbacks := replicate MAX_CALLBACKS NULL;
     simple_callback_count := 0 |}.

(** [n] iterations are left and the loop variable is [i]; the loop runs
    while [i < simple_callback_count].  The [None] branch is a read past the
    list, which the count, never above [MAX_CALLBACKS], does not reach. *)
Fixpoint trigger_loop (n i : nat) (value : Z) (r : registry) : simple_outcome :=
  match n with
  | O => SimpleReturned []
  | S n' =>
      match simple_callbacks r !! i with
      | Some f =>
          if decide (f = NULL) then SimpleNullCall []
          else after_simple_call {| sfn := f; sval := value |}
                                 (trigger_loop n' (S i) value r)
      | None => SimpleReturned []
      end
  end.

Definition trigger_simple_callbacks (value : Z) (r : registry) : simple_outcome :=
  trigger_loop (Z.to_nat (simple_callback_count r)) 0 value r.

Definition clear_simple_callbacks (r : registry) : registry :=
  {| simple_callbacks := simple_callbacks r; simple_callback_count := 0 |}.

(** *** Runs of the registry *)
Inductive op :=
  | Register (callback : Z)
  | Clear.

Definition step (r : registry) (o : op) : registry :=
  match o with
  | Register callback => register_simple_callback callback r
  | Clear => clear_simple_callbacks r
  end.

Definition run (r : registry) (ops : list op) : registry := foldl step r ops.

(** *** Vocabulary of the statements *)

(** The callbacks a run leaves registered, oldest first, when [acc] were
    registered before it: a registration counts when fewer than
    [MAX_CALLBACKS] are registered and its callback is not null; a clear
    forgets all. *)
Fixpoint accepted (acc : list Z) (ops : list op) : list Z :=
  match ops with
  | [] => acc
  | Register callback :: ops' =>
      accepted (if decide ((length acc < MAX_CALLBACKS)%nat ∧ callback ≠ NULL)
                then acc ++ [callback] else acc) ops'
  | Clear :: ops' => accepted [] ops'
  end.

(** The registry holds the callbacks [acc]: in the first entries of the
    array, in order, with the count at their number. *)
Definition holds (r : registry) (acc : list Z) : Prop :=
  length (simple_callbacks r) = MAX_CALLBACKS ∧
  simple_callback_count r = Z.of_nat (length acc) ∧
  (length acc <= MAX_CALLBACKS)%nat ∧
  take (length acc) (simple_callbacks r) = acc ∧
  Forall (λ f, f ≠ NULL) acc.

Fixpoint invoke_all (cs : list simple_call) : simple_outcome :=
  match cs with
  | [] => SimpleReturned []
  | c :: cs' =>
      if decide (sfn c = NULL) then SimpleNullCall []
      else after_simple_call c (invoke_all cs')
  end.

End Simple.

(** ** Pattern 3: callbacks with user data *)
Module WithData.

Record callback_entry_t := Entry { callback : Z; user_data : Z }.

Record registry := Registry {
  callbacks_with_data : list callback_entry_t;
  callback_with_data_count : Z
}.

Definition register_callback_with_data (cb ud : Z) (r : registry) : registry :=
  if decide (callback_with_data_count r < Z.of_nat MAX_CALLBACKS ∧ cb ≠ NULL)
  then {| callbacks_with_data :=
            <[Z.to_nat (callback_with_data_count r) := Entry cb ud]>
              (callbacks_with_data r);
          callback_with_data_count := wrap32 (callback_with_data_count r + 1) |}
  else r.

Definition init : registry :=
  {| callbacks_with_data := replicate MAX_CALLBACKS (Entry NULL NULL);
     callback_with_data_count := 0 |}.

(** As [Simple.trigger_loop], with the entry's [user_data] passed along. *)
Fixpoint trigger_loop (n i : nat) (value : Z) (r : registry) : outcome :=
  match n with
  | O => Returned []
  | S n' =>
      match callbacks_with_data r !! i with
      | Some e =>
          if decide (callback e = NULL) then NullCall []
          else after_call {| fn := callback e; arg := user_data e; val := value |}
                          (trigger_loop n' (S i) value r)
      | None => Returned []
      end
  end.

Definition trigger_callbacks_with_data (value : Z) (r : registry) : outcome :=
  trigger_loop (Z.to_nat (callback_with_data_count r)) 0 value r.

Definition clear_callbacks_with_data (r : registry) : registry :=
  {| callbacks_with_data := callbacks_with_data r; callback_with_data_count := 0 |}.

(** *** Runs of the registry *)
Inductive op :=
  | Register (cb ud : Z)
  | Clear.

Definition step (r : registry) (o : op) : registry :=
  match o with
  | Register cb ud => register_callback_with_data cb ud r
  | Clear => clear_callbacks_with_data r
  end.

Definition run (r : registry) (ops : list op) : registry := foldl step r ops.

(** *** Vocabulary of the statements *)

(** The entries a run leaves registered, oldest first, when [acc] were
    registered before it. *)
Fixpoint accepted (acc : list callback_entry_t) (ops : list op)
    : list callback_entry_t :=
  match ops with
  | [] => acc
  | Register cb ud :: ops' =>
      accepted (if decide ((length acc < MAX_CALLBACKS)%nat ∧ cb ≠ NULL)
                then acc ++ [Entry cb ud] else acc) ops'
  | Clear :: ops' => accepted [] ops'
  end.

Definition call_of (value : Z) (e : callback_entry_t) : call :=
  {| fn := callback e; arg := user_data e; val := value |}.

(** The registry holds the entries [acc]: in the first entries of the array,
    in order, with the count at their number. *)
Definition holds (r : registry) (acc : list callback_entry_t) : Prop :=
  length (callbacks_with_data r) = MAX_CALLBACKS ∧
  callback_with_data_count r = Z.of_nat (length acc) ∧
  (length acc <= MAX_CALLBACKS)%nat ∧
  take (length acc) (callbacks_with_data r) = acc ∧
  Forall (λ e, callback e ≠ NULL) acc.

Fixpoint invoke_all (cs : list call) : outcome :=
  match cs with
  | [] => Returned []
  | c :: cs' =>
      if decide (fn c = NULL) then NullCall [] else after_call c (invoke_all cs')
  end.

End WithData.

(** ** Pattern 3: managed callbacks *)
Module Managed.

Record managed_callback_t := Slot {
  handle : Z;
  callback : Z;
  user_data : Z;
  active : Z
}.

(** The two file-scope objects of the managed registry. *)
Record registry := Registry {
  managed_callbacks : list managed_callback_t;
  next_handle : Z
}.

(** Objects of static storage duration start out zeroed; [next_handle] is
    initialised to 1. *)
Definition init : registry :=
  {| managed_callbacks := replicate MAX_CALLBACKS (Slot 0 NULL NULL 0);
     next_handle := 1 |}.

(** [n] iterations are left and the loop variable is [i].  The array has
    [MAX_CALLBACKS] entries, so a read at [i] finds one whenever [n] is
    not 0; the [None] branches are there for lists of another length. *)
Fixpoint register_loop (n i : nat) (cb ud : Z) (r : registry) : registry * Z :=
  match n with
  | O => (r, -1)
  | S n' =>
      match managed_callbacks r !! i with
      | Some s =>
          if decide (active s = 0)
          then ({| managed_callbacks :=
                     <[i := {| handle := next_handle r; callback := cb;
                               user_data := ud; active := 1 |}]>
                       (managed_callbacks r);
                   next_handle := wrap32 (next_handle r + 1) |},
                next_handle r)
          else register_loop n' (S i) cb ud r
      | None => (r, -1)
      end
  end.

Definition register_managed_callback (cb ud : Z) (r : registry) : registry * Z :=
  register_loop MAX_CALLBACKS 0 cb ud r.

Fixpoint unregister_loop (n i : nat) (h : Z) (r : registry) : registry :=
  match n with
  | O => r
  | S n' =>
      match managed_callbacks r !! i with
      | Some s =>
          if decide (active s ≠ 0 ∧ handle s = h)
          then {| managed_callbacks :=
                    <[i := {| handle := handle s; callback := callback s;
                              user_data := user_data s; active := 0 |}]>
                      (managed_callbacks r);
                  next_handle := next_handle r |}
          else unregister_loop n' (S i) h r
      | None => r
      end
  end.

Definition unregister_managed_callback (h : Z) (r : registry) : registry :=
  unregister_loop MAX_CALLBACKS 0 h r.

(** The function writes no object of the registry, so it returns only what
    it called. *)
Fixpoint trigger_loop (n i : nat) (value : Z) (r : registry) : outcome :=
  match n with
  | O => Returned []
  | S n' =>
      match managed_callbacks r !! i with
      | Some s =>
          if decide (active s = 0)
          then trigger_loop n' (S i) value r
          else if decide (callback s = NULL)
          then NullCall []
          else after_call {| fn := callback s; arg := user_data s; val := value |}
                          (trigger_loop n' (S i) value r)
      | None => Returned []
      end
  end.

Definition trigger_managed_callbacks (value : Z) (r : registry) : outcome :=
  trigger_loop MAX_CALLBACKS 0 value r.

(** *** Runs of the registry

    [trigger_managed_callbacks] changes nothing, so the states the registry
    goes through are those of its registrations and revocations. *)
Inductive op :=
  | Register (cb ud : Z)
  | Unregister (h : Z).

(** The state after [ops], and what the [Register] calls returned, in call
    order. *)
Fixpoint run (r : registry) (ops : list op) : registry * list Z :=
  match ops with
  | [] => (r, [])
  | Register cb ud :: ops' =>
      let '(r1, h) := register_managed_callback cb ud r in
      let '(r2, hs) := run r1 ops' in
      (r2, h :: hs)
  | Unregister h :: ops' => run (unregister_managed_callback h r) ops'
  end.

(** How many times [ops] calls [register_managed_callback]. *)
Fixpoint registrations (ops : list op) : Z :=
  match ops with
  | [] => 0
  | Register _ _ :: ops' => 1 + registrations ops'
  | Unregister _ :: ops' => registrations ops'
  end.

(** The calls that returned a handle. *)
Definition issued (rets : list Z) : list Z := filter (λ h, h ≠ -1) rets.

(** *** Vocabulary of the statements *)

(** The array has [MAX_CALLBACKS] entries. *)
Definition table_ok (r : registry) : Prop :=
  length (managed_callbacks r) = MAX_CALLBACKS.

(** The slots in use, in index order. *)
Definition active_slots (r : registry) : list managed_callback_t :=
  filter (λ s, active s ≠ 0) (managed_callbacks r).

Definition call_of (value : Z) (s : managed_callback_t) : call :=
  {| fn := callback s; arg := user_data s; val := value |}.

(** Making the calls [cs] one after the other. *)
Fixpoint invoke_all (cs : list call) : outcome :=
  match cs with
  | [] => Returned []
  | c :: cs' =>
      if decide (fn c = NULL) then NullCall [] else after_call c (invoke_all cs')
  end.

(** No two active slots carry the same handle. *)
Definition handles_distinct (r : registry) : Prop :=
  ∀ i j s t,
    managed_callbacks r !! i = Some s → managed_callbacks r !! j = Some t →
    active s ≠ 0 → active t ≠ 0 → handle s = handle t → i = j.

(** What holds of the registry as long as the counter has not overflowed:
    it is positive and above every handle in the table. *)
Record registry_inv (r : registry) : Prop := {
  inv_table : table_ok r;
  inv_next : 1 <= next_handle r <= INT32_MAX;
  inv_below : Forall (λ s, handle s < next_handle r) (managed_callbacks r);
  inv_distinct : handles_distinct r
}.

(** Slot [i] is inactive and no slot below it is. *)
Definition first_free (r : registry) (i : nat) : Prop :=
  (∃ s, managed_callbacks r !! i = Some s ∧ active s = 0) ∧
  ∀ j t, (j < i)%nat → managed_callbacks r !! j = Some t → active t ≠ 0.

(** Slot [i] is the first active slot that carries [h]. *)
Definition revoked_at (r : registry) (h : Z) (i : nat) : Prop :=
  (∃ s, managed_callbacks r !! i = Some s ∧ active s ≠ 0 ∧ handle s = h) ∧
  ∀ j t, (j < i)%nat → managed_callbacks r !! j = Some t →
         ¬ (active t ≠ 0 ∧ handle t = h).

(** Revoking [h] leaves the slot it stops at inactive and with null
    callback and context. *)
Definition unregister_clears (r : registry) (h : Z) : Prop :=
  ∀ i, revoked_at r h i →
    ∃ s', managed_callbacks (unregister_managed_callback h r) !! i = Some s' ∧
          active s' = 0 ∧ callback s' = NULL ∧ user_data s' = NULL.

(** Some run leads to a table with two inactive slots [j < i] in which a
    registration succeeds and puts its entry in slot [i]. *)
Definition registers_above_a_free_slot : Prop :=
  ∃ ops cb ud i j si sj,
    let r := (run init ops).1 in
    let '(r', h) := register_managed_callback cb ud r in
    managed_callbacks r !! i = Some si ∧ active si = 0 ∧
    managed_callbacks r !! j = Some sj ∧ active sj = 0 ∧
    (j < i)%nat ∧
    managed_callbacks r' !! i = Some {| handle := h; callback := cb;
                                        user_data := ud; active := 1 |}.


(** No active slot carries [h]. *)
Definition not_registered (r : registry) (h : Z) : Prop :=
  Forall (λ s, ¬ (active s ≠ 0 ∧ handle s = h)) (managed_callbacks r).

(** Every registration of [ops] passes a callback that is not null. *)
Definition callbacks_given (ops : list op) : Prop :=
  Forall (λ o, match o with Register cb _ => cb ≠ NULL | Unregister _ => True end) ops.

End Managed.

(** ** Pattern 4: error handling *)

(** [a / b] on [int32_t]: the quotient truncated toward zero.  C defines
    nothing for a zero divisor, nor for [INT32_MIN / -1], whose quotient
    [2 ^ 31] is not an [int32_t]. *)
Definition int32_div (a b : Z) : option Z :=
  if decide (b = 0 ∨ (a = INT32_MIN ∧ b = -1)) then None else Some (a ÷ b).

(** [result] is [None] for a null pointer, else the value the pointed-to
    object holds.  The function returns its code and what [result] points to
    afterwards, or [None] where C defines nothing. *)
Definition c_divide (a b : Z) (result : option Z) : option (Z * option Z) :=
  match result with
  | None => Some (ERROR_NULL_POINTER, None)
  | Some old =>
      if decide (b = 0) then Some (ERROR_INVALID_INPUT, Some old)
      else match int32_div a b with
           | Some q => Some (SUCCESS, Some q)
           | None => None
           end
  end.

(** What the specification says of [c_divide] at [a], [b] and a non-null
    output holding [old]. *)
Definition divide_as_specified (a b old : Z) : Prop :=
  (b = 0 → c_divide a b (Some old) = Some (ERROR_INVALID_INPUT, Some old)) ∧
  (b ≠ 0 → c_divide a b (Some old) = Some (SUCCESS, Some (a ÷ b))).

(** ** Pattern 5: the opaque connection *)
Module Db.

Local Open Scope string_scope.

(** [last_error] is a [char[256]]; the model keeps the string it holds. *)
Record db_connection := Conn {
  path : option string;
  connected : Z;
  last_error : string;
  query_count : Z
}.

Definition newline : string := String "010" "".

Fixpoint is_prefix (p s : string) : bool :=
  match p, s with
  | "", _ => true
  | String a p', String b s' => if decide (a = b) then is_prefix p' s' else false
  | String _ _, "" => false
  end.

(** [strstr]: the first suffix of [haystack] that starts with [needle]. *)
Fixpoint strstr (haystack needle : string) : option string :=
  if is_prefix needle haystack then Some haystack
  else match haystack with
       | "" => None
       | String _ rest => strstr rest needle
       end.

(** The heap is not modelled: whether [malloc] and [strdup] succeed is an
    input.  Every function returns what it printed next to its result. *)
Definition db_open (malloc_ok strdup_ok : bool) (path : option string)
    : option db_connection * list string :=
  match path with
  | None => (None, [])
  | Some p =>
      if malloc_ok
      then (Some {| path := if strdup_ok then Some p else None;
                    connected := 1;
                    last_error := "";
                    query_count := 0 |},
            ["[C] Database opened: " ++ p ++ newline])
      else (None, [])
  end.

(** [conn] is [None] for a null pointer, else the object it points to; the
    first component of the result is that object after the call. *)
Definition db_execute (conn : option db_connection) (sql : option string)
    : option db_connection * list string * Z :=
  match conn, sql with
  | Some c, Some q =>
      if decide (connected c = 0)
      then (Some {| path := path c; connected := connected c;
                    last_error := "Not connected";
                    query_count := query_count c |},
            [], ERROR_INVALID_INPUT)
      else
        let n := wrap32 (query_count c + 1) in
        let out := ["[C] Executed query #" ++ pretty n ++ ": " ++ q ++ newline] in
        match strstr q "ERROR" with
        | Some _ =>
            (Some {| path := path c; connected := connected c;
                     last_error := "Simulated query error";
                     query_count := n |},
             out, ERROR_COMPUTATION_FAILED)
        | None =>
            (Some {| path := path c; connected := connected c;
                     last_error := "";
                     query_count := n |},
             out, SUCCESS)
        end
  | _, _ => (conn, [], ERROR_NULL_POINTER)
  end.

Definition db_get_last_error (conn : option db_connection) : string :=
  match conn with
  | None => "Null connection"
  | Some c => last_error c
  end.

(** The object is freed: no object is left behind the pointer.  A null
    [%s] argument is printed the way glibc does. *)
Definition db_close (conn : option db_connection)
    : option db_connection * list string :=
  match conn with
  | None => (None, [])
  | Some c =>
      (None, ["[C] Database closed: " ++ default "(null)" (path c)
              ++ " (queries: " ++ pretty (query_count c) ++ ")" ++ newline])
  end.

(** *** Vocabulary of the statements *)

(** [q] has the marker somewhere in it. *)
Definition has_marker (q : string) : Prop :=
  ∃ pre post, q = pre ++ "ERROR" ++ post.

(** A series of [db_execute] calls on one connection: the object after
    each call, and the codes returned. *)
Fixpoint execute_all (c : db_connection) (sqls : list (option string))
    : list (db_connection * Z) :=
  match sqls with
  | [] => []
  | q :: sqls' =>
      match db_execute (Some c) q with
      | (Some c', _, code) => (c', code) :: execute_all c' sqls'
      | (None, _, code) => []
      end
  end.

(** The object after a series of [db_execute] calls. *)
Fixpoint execute_seq (c : db_connection) (sqls : list (option string))
    : db_connection :=
  match sqls with
  | [] => c
  | q :: sqls' =>
      match db_execute (Some c) q with
      | (Some c', _, _) => execute_seq c' sqls'
      | (None, _, _) => c
      end
  end.

(** How many of the commands are not null. *)
Fixpoint commands (sqls : list (option string)) : Z :=
  match sqls with
  | [] => 0
  | Some _ :: sqls' => 1 + commands sqls'
  | None :: sqls' => commands sqls'
  end.

End Db.

(** [c_error_message] *)
Definition c_error_message (error_code : Z) : string :=
  if decide (error_code = SUCCESS) then "Success"
  else if decide (error_code = ERROR_NULL_POINTER) then "Null pointer provided"
  else if decide (error_code = ERROR_INVALID_INPUT) then "Invalid input"
  else if decide (error_code = ERROR_COMPUTATION_FAILED) then "Computation failed"
  else "Unknown error".

(** ** Pattern 1: C ABI compatibility *)
Module Abi.

(** [uint8_t a; uint32_t b; uint16_t c]. *)
Record CStruct := Struct { a : Z; b : Z; c : Z }.

Definition struct_ok (s : CStruct) : Prop :=
  0 <= a s < 2 ^ 8 ∧ 0 <= b s < 2 ^ 32 ∧ 0 <= c s < 2 ^ 16.

(** Arithmetic on [unsigned int]. *)
Definition wrapu32 (z : Z) : Z := z mod 2 ^ 32.

(** [s->a + s->b + s->c] is computed in [unsigned int], the type [s->b]
    brings the other operands to, and then converted to [int32_t]. *)
Definition process_struct (s : option CStruct) : Z :=
  match s with
  | None => -1
  | Some s => wrap32 (wrapu32 (wrapu32 (a s + b s) + c s))
  end.

Definition c_add (x y : Z) : Z := wrap32 (x + y).

Definition c_abs (n : Z) : Z := if decide (n < 0) then wrap32 (- n) else n.

End Abi.

(** ** Pattern 2: string handling *)
Module CStr.







Section concat.

(** [malloc n] is a block of [n] bytes of any content, or [None]. *)
Variable malloc : nat → option (list ascii).


End concat.

End CStr.

(** * Properties *)

(** ** Machine integers *)

Lemma wrap32_id z : in_int32 z → wrap32 z = z.
Proof.
  unfold in_int32, INT32_MIN, INT32_MAX, wrap32. intros Hz.
  rewrite Z.mod_small; lia.
Qed.

Lemma wrap32_succ z : INT32_MIN <= z < INT32_MAX → wrap32 (z + 1) = z + 1.
Proof. intros Hz. apply wrap32_id. unfold in_int32. lia. Qed.

(** ** The loops of the managed registry, by the slot they stop at *)
Section managed_loops.
Import Managed.

Implicit Types (r : registry) (s t : managed_callback_t) (i j k n : nat).

Lemma register_loop_find n i cb ud r :
  register_loop n i cb ud r =
    match list_find (λ s, active s = 0) (take n (drop i (managed_callbacks r))) with
    | Some (k, _) =>
        ({| managed_callbacks :=
              <[(i + k)%nat := Slot (next_handle r) cb ud 1]> (managed_callbacks r);
            next_handle := wrap32 (next_handle r + 1) |}, next_handle r)
    | None => (r, -1)
    end.
Proof.
  revert i. induction n as [|n IH]; intros i; simpl; [done|].
  destruct (managed_callbacks r !! i) as [s|] eqn:Hi.
  - rewrite (drop_S _ _ _ Hi). simpl.
    destruct (decide (active s = 0)) as [Hs|Hs]; simpl.
    + by rewrite Nat.add_0_r.
    + rewrite IH.
      destruct (list_find _ (take n (drop (S i) (managed_callbacks r))))
        as [[k t]|]; simpl; [|done].
      by rewrite Nat.add_succ_r.
  - rewrite drop_ge; [|by apply lookup_ge_None]. by rewrite take_nil.
Qed.

Lemma register_find cb ud r :
  table_ok r →
  register_managed_callback cb ud r =
    match list_find (λ s, active s = 0) (managed_callbacks r) with
    | Some (i, _) =>
        ({| managed_callbacks :=
              <[i := Slot (next_handle r) cb ud 1]> (managed_callbacks r);
            next_handle := wrap32 (next_handle r + 1) |}, next_handle r)
    | None => (r, -1)
    end.
Proof.
  intros Hlen. unfold register_managed_callback.
  rewrite register_loop_find, drop_0, take_ge; [done|].
  unfold table_ok in Hlen. lia.
Qed.

Lemma first_free_find r i :
  first_free r i ↔ ∃ s, list_find (λ s, active s = 0) (managed_callbacks r) = Some (i, s).
Proof.
  split.
  - intros [(s & Hi & Hs) Hmin]. exists s. apply list_find_Some.
    split_and!; [done..|]. intros j t Hj Hlt. by eapply Hmin.
  - intros (s & (Hi & Hs & Hmin)%list_find_Some). split; [by eauto|].
    intros j t Hlt Hj. by eapply Hmin.
Qed.

Lemma register_full cb ud r :
  table_ok r →
  Forall (λ s, active s ≠ 0) (managed_callbacks r) →
  register_managed_callback cb ud r = (r, -1).
Proof.
  intros Hlen Hall. rewrite register_find by done.
  destruct (list_find _ _) as [[i s]|] eqn:Hf; [|done].
  apply list_find_Some in Hf as (Hi & Hs & _).
  rewrite Forall_lookup in Hall. by destruct (Hall i s Hi).
Qed.

Lemma register_at cb ud r i :
  table_ok r → first_free r i →
  register_managed_callback cb ud r =
    ({| managed_callbacks :=
          <[i := Slot (next_handle r) cb ud 1]> (managed_callbacks r);
        next_handle := wrap32 (next_handle r + 1) |}, next_handle r).
Proof.
  intros Hlen [s Hf]%first_free_find. by rewrite register_find, Hf.
Qed.

Lemma full_or_free r :
  Forall (λ s, active s ≠ 0) (managed_callbacks r) ∨ ∃ i, first_free r i.
Proof.
  destruct (list_find (λ s, active s = 0) (managed_callbacks r)) as [[i s]|] eqn:Hf.
  - right. exists i. apply first_free_find. eauto.
  - left. by apply list_find_None in Hf.
Qed.

Lemma unregister_loop_find n i h r :
  unregister_loop n i h r =
    match list_find (λ s, active s ≠ 0 ∧ handle s = h)
                    (take n (drop i (managed_callbacks r))) with
    | Some (k, s) =>
        {| managed_callbacks :=
             <[(i + k)%nat := Slot (handle s) (callback s) (user_data s) 0]>
               (managed_callbacks r);
           next_handle := next_handle r |}
    | None => r
    end.
Proof.
  revert i. induction n as [|n IH]; intros i; simpl; [done|].
  destruct (managed_callbacks r !! i) as [s|] eqn:Hi.
  - rewrite (drop_S _ _ _ Hi). simpl.
    destruct (decide (active s ≠ 0 ∧ handle s = h)) as [Hs|Hs]; simpl.
    + by rewrite Nat.add_0_r.
    + rewrite IH.
      destruct (list_find _ (take n (drop (S i) (managed_callbacks r))))
        as [[k t]|]; simpl; [|done].
      by rewrite Nat.add_succ_r.
  - rewrite drop_ge; [|by apply lookup_ge_None]. by rewrite take_nil.
Qed.

Lemma unregister_find h r :
  table_ok r →
  unregister_managed_callback h r =
    match list_find (λ s, active s ≠ 0 ∧ handle s = h) (managed_callbacks r) with
    | Some (i, s) =>
        {| managed_callbacks :=
             <[i := Slot (handle s) (callback s) (user_data s) 0]>
               (managed_callbacks r);
           next_handle := next_handle r |}
    | None => r
    end.
Proof.
  intros Hlen. unfold unregister_managed_callback.
  rewrite unregister_loop_find, drop_0, take_ge; [done|].
  unfold table_ok in Hlen. lia.
Qed.

Lemma revoked_at_find r h i :
  revoked_at r h i ↔
  ∃ s, list_find (λ s, active s ≠ 0 ∧ handle s = h) (managed_callbacks r) = Some (i, s).
Proof.
  split.
  - intros [(s & Hi & Hs) Hmin]. exists s. apply list_find_Some.
    split; [done|]. split; [done|]. intros j t Hj Hlt. by eapply Hmin.
  - intros (s & (Hi & Hs & Hmin)%list_find_Some). split; [by eauto|].
    intros j t Hlt Hj. by eapply Hmin.
Qed.

Lemma unregister_absent h r :
  table_ok r →
  Forall (λ s, ¬ (active s ≠ 0 ∧ handle s = h)) (managed_callbacks r) →
  unregister_managed_callback h r = r.
Proof.
  intros Hlen Hall. rewrite unregister_find by done.
  destruct (list_find _ _) as [[i s]|] eqn:Hf; [|done].
  apply list_find_Some in Hf as (Hi & Hs & _).
  rewrite Forall_lookup in Hall. by destruct (Hall i s Hi).
Qed.

Lemma unregister_at h r i s :
  table_ok r → revoked_at r h i → managed_callbacks r !! i = Some s →
  unregister_managed_callback h r =
    {| managed_callbacks :=
         <[i := Slot (handle s) (callback s) (user_data s) 0]> (managed_callbacks r);
       next_handle := next_handle r |}.
Proof.
  intros Hlen [s' Hf]%revoked_at_find Hi. rewrite unregister_find, Hf by done.
  apply list_find_Some in Hf as (Hi' & _). by simplify_eq.
Qed.

Lemma absent_or_revoked r h :
  Forall (λ s, ¬ (active s ≠ 0 ∧ handle s = h)) (managed_callbacks r) ∨
  ∃ i, revoked_at r h i.
Proof.
  destruct (list_find (λ s, active s ≠ 0 ∧ handle s = h) (managed_callbacks r))
    as [[i s]|] eqn:Hf.
  - right. exists i. apply revoked_at_find. eauto.
  - left. by apply list_find_None in Hf.
Qed.

Lemma trigger_loop_calls n i value r :
  trigger_loop n i value r =
    invoke_all (call_of value <$>
                filter (λ s, active s ≠ 0) (take n (drop i (managed_callbacks r)))).
Proof.
  revert i. induction n as [|n IH]; intros i; simpl; [done|].
  destruct (managed_callbacks r !! i) as [s|] eqn:Hi.
  - rewrite (drop_S _ _ _ Hi). simpl. rewrite filter_cons.
    destruct (decide (active s = 0)) as [Hs|Hs].
    + rewrite decide_False by tauto. apply IH.
    + rewrite (decide_True (P := active s ≠ 0)) by done. simpl.
      unfold call_of at 1. simpl.
      destruct (decide (callback s = NULL)); [done|]. by rewrite IH.
  - rewrite drop_ge; [|by apply lookup_ge_None]. by rewrite take_nil.
Qed.

Lemma trigger_calls value r :
  table_ok r →
  trigger_managed_callbacks value r = invoke_all (call_of value <$> active_slots r).
Proof.
  intros Hlen. unfold trigger_managed_callbacks, active_slots.
  rewrite trigger_loop_calls, drop_0, take_ge; [done|].
  unfold table_ok in Hlen. lia.
Qed.

Lemma invoke_all_returns cs :
  Forall (λ c, fn c ≠ NULL) cs → invoke_all cs = Returned cs.
Proof.
  induction 1 as [|c cs Hc _ IH]; simpl; [done|].
  rewrite decide_False by done. by rewrite IH.
Qed.

End managed_loops.

(** ** The invariant of the managed registry *)
Section managed_invariant.
Import Managed.

Implicit Types (r : registry) (s t : managed_callback_t) (i j : nat).

Lemma init_inv : registry_inv init.
Proof.
  split.
  - done.
  - done.
  - cbn [init managed_callbacks next_handle]. by apply Forall_replicate.
  - intros i j s t [-> _]%lookup_replicate _ Hs. by destruct Hs.
Qed.

Lemma register_inv cb ud r :
  registry_inv r → next_handle r < INT32_MAX →
  registry_inv (register_managed_callback cb ud r).1.
Proof.
  intros [Hlen Hnext Hbelow Hdist] Hmax.
  destruct (full_or_free r) as [Hfull|[i Hi]].
  { by rewrite register_full. }
  rewrite (register_at _ _ _ i) by done. simpl.
  assert (wrap32 (next_handle r + 1) = next_handle r + 1) as Hw.
  { apply wrap32_succ. unfold INT32_MIN. lia. }
  destruct Hi as [(s & Hi & Hs) _].
  split; simpl.
  - unfold table_ok in *; simpl. by rewrite length_insert.
  - lia.
  - rewrite Hw. apply Forall_insert; simpl; [|lia].
    eapply Forall_impl; [done|]. simpl. lia.
  - intros j k t u Hj Hk Ht Hu Heq. simpl in *.
    rewrite Forall_lookup in Hbelow.
    destruct (decide (j = k)) as [|Hjk]; [done|].
    destruct (decide (i = j)) as [Hij|Hij], (decide (i = k)) as [Hik|Hik].
    + congruence.
    + subst j. rewrite list_lookup_insert_eq in Hj by (by eapply lookup_lt_Some).
      rewrite list_lookup_insert_ne in Hk by done.
      simplify_eq/=. specialize (Hbelow k u Hk). simpl in *. lia.
    + subst k. rewrite list_lookup_insert_eq in Hk by (by eapply lookup_lt_Some).
      rewrite list_lookup_insert_ne in Hj by done.
      simplify_eq/=. specialize (Hbelow j t Hj). simpl in *. lia.
    + rewrite list_lookup_insert_ne in Hj, Hk by done. by eapply Hdist.
Qed.

Lemma unregister_inv h r :
  registry_inv r → registry_inv (unregister_managed_callback h r).
Proof.
  intros [Hlen Hnext Hbelow Hdist].
  destruct (absent_or_revoked r h) as [Habs|[i Hi]].
  { by rewrite unregister_absent. }
  pose proof Hi as [(s & Hs & _) _].
  rewrite (unregister_at _ _ i s) by done.
  split; simpl.
  - unfold table_ok in *; simpl. by rewrite length_insert.
  - done.
  - apply Forall_insert; simpl; [done|].
    rewrite Forall_lookup in Hbelow. apply (Hbelow i s Hs).
  - intros j k t u Hj Hk Ht Hu Heq. simpl in *.
    destruct (decide (i = j)) as [Hij|Hij].
    { subst j. rewrite list_lookup_insert_eq in Hj by (by eapply lookup_lt_Some).
      by simplify_eq/=. }
    destruct (decide (i = k)) as [Hik|Hik].
    { subst k. rewrite list_lookup_insert_eq in Hk by (by eapply lookup_lt_Some).
      by simplify_eq/=. }
    rewrite list_lookup_insert_ne in Hj, Hk by done. by eapply Hdist.
Qed.

(** After a revocation in a table without duplicates no active slot
    carries the handle. *)
Lemma unregister_gone h r :
  table_ok r → handles_distinct r →
  Forall (λ s, ¬ (active s ≠ 0 ∧ handle s = h))
         (managed_callbacks (unregister_managed_callback h r)).
Proof.
  intros Hlen Hdist.
  destruct (absent_or_revoked r h) as [Habs|[i Hi]].
  { by rewrite unregister_absent. }
  pose proof Hi as [(s & Hs & Hact & Hh) _].
  rewrite (unregister_at _ _ i s) by done. simpl.
  apply Forall_lookup. intros j t Hj [Ht Hht].
  destruct (decide (i = j)) as [Hij|Hij].
  - subst j. rewrite list_lookup_insert_eq in Hj by (by eapply lookup_lt_Some).
    by simplify_eq/=.
  - rewrite list_lookup_insert_ne in Hj by done.
    apply Hij. eapply Hdist; [done..|]. congruence.
Qed.

Lemma issued_cons h hs :
  issued (h :: hs) = if decide (h = -1) then issued hs else h :: issued hs.
Proof.
  unfold issued. rewrite filter_cons.
  destruct (decide (h = -1)).
  - by rewrite decide_False by tauto.
  - by rewrite decide_True.
Qed.

Lemma run_register cb ud r ops :
  run r (Register cb ud :: ops) =
    let r1 := (register_managed_callback cb ud r).1 in
    ((run r1 ops).1, (register_managed_callback cb ud r).2 :: (run r1 ops).2).
Proof.
  simpl. destruct (register_managed_callback cb ud r) as [r1 h]. simpl.
  by destruct (run r1 ops).
Qed.

Lemma registrations_nonneg ops : 0 <= registrations ops.
Proof. induction ops as [|[] ops IH]; simpl; lia. Qed.

(** While the counter stays in range, a run keeps the invariant and hands
    out the values of the counter, in order. *)
Lemma run_issued ops r :
  registry_inv r →
  next_handle r + registrations ops <= INT32_MAX →
  registry_inv (run r ops).1 ∧
  next_handle r <= next_handle (run r ops).1 <= next_handle r + registrations ops ∧
  Forall (λ h, next_handle r <= h < next_handle (run r ops).1) (issued (run r ops).2) ∧
  StronglySorted Z.lt (issued (run r ops).2).
Proof.
  revert r. induction ops as [|[cb ud|h] ops IH]; intros r Hinv Hmax.
  - simpl. split_and!; try done; try lia; constructor.
  - pose proof (registrations_nonneg ops) as Hn.
    rewrite run_register. cbn [registrations] in *. cbn zeta. cbn [fst snd].
    destruct (full_or_free r) as [Hfull|[i Hi]].
    + rewrite register_full by (done || apply Hinv). cbn [fst snd].
      rewrite issued_cons, decide_True by done.
      destruct (IH r Hinv) as (? & ? & ? & ?); [lia|].
      split_and!; try done; lia.
    + pose proof (register_inv cb ud r Hinv ltac:(lia)) as Hinv1.
      rewrite (register_at _ _ _ i) in * by (done || apply Hinv).
      cbn [fst snd] in *.
      set (r1 := {| managed_callbacks := _ |}) in *.
      assert (next_handle r1 = next_handle r + 1) as Hr1.
      { subst r1; simpl. apply wrap32_succ.
        destruct Hinv as [_ ? _ _]. unfold INT32_MIN. lia. }
      clearbody r1.
      destruct (IH r1 Hinv1) as (? & ? & Hall & Hsort); [lia|].
      destruct Hinv as [_ ? _ _].
      rewrite issued_cons, decide_False by lia.
      split_and!; try done; try lia.
      * constructor; [lia|]. eapply Forall_impl; [done|]. simpl. lia.
      * constructor; [done|]. eapply Forall_impl; [done|]. simpl. lia.
  - cbn [run registrations] in *.
    pose proof (unregister_inv h r Hinv) as Hinv1.
    assert (next_handle (unregister_managed_callback h r) = next_handle r) as Hr1.
    { destruct (absent_or_revoked r h) as [Habs|[i Hi]].
      - rewrite unregister_absent; [done|apply Hinv|done].
      - pose proof Hi as [(s & Hs & _) _].
        rewrite (unregister_at _ _ i s); [done|apply Hinv|done..]. }
    destruct (IH _ Hinv1) as (? & ? & Hall & Hsort); [lia|].
    rewrite Hr1 in *. done.
Qed.

(** Under the invariant [-1] is not a handle: it is returned exactly when
    the table is full. *)
Lemma register_fails_iff_full cb ud r :
  registry_inv r →
  (register_managed_callback cb ud r).2 = -1 ↔
  Forall (λ s, active s ≠ 0) (managed_callbacks r).
Proof.
  intros [Hlen Hnext _ _]. split.
  - intros Hret. destruct (full_or_free r) as [Hfull|[i Hi]]; [done|].
    rewrite (register_at _ _ _ i) in Hret by done. simpl in Hret. lia.
  - intros Hfull. by rewrite register_full.
Qed.

Lemma run_table_ok ops r : table_ok r → table_ok (run r ops).1.
Proof.
  revert r. induction ops as [|[cb ud|h] ops IH]; intros r Hlen; [done|..].
  - rewrite run_register. cbn zeta. cbn [fst]. apply IH.
    destruct (full_or_free r) as [Hfull|[i Hi]].
    + by rewrite register_full.
    + rewrite (register_at _ _ _ i) by done.
      unfold table_ok in *; simpl. by rewrite length_insert.
  - cbn [run]. apply IH.
    destruct (absent_or_revoked r h) as [Habs|[i Hi]].
    + by rewrite unregister_absent.
    + pose proof Hi as [(s & Hs & _) _].
      rewrite (unregister_at _ _ i s) by done.
      unfold table_ok in *; simpl. by rewrite length_insert.
Qed.

Lemma sorted_lt_NoDup (l : list Z) : StronglySorted Z.lt l → NoDup l.
Proof.
  induction 1 as [|x l _ IH Hx]; constructor; [|done].
  intros Hin. rewrite Forall_forall in Hx. specialize (Hx x Hin). lia.
Qed.

(** The slots a trigger goes to after a revocation: the active ones of the
    table without the revoked slot. *)
Lemma unregister_active_slots h r i :
  table_ok r → revoked_at r h i →
  active_slots (unregister_managed_callback h r) =
    filter (λ s, active s ≠ 0) (delete i (managed_callbacks r)).
Proof.
  intros Hlen Hi. pose proof Hi as [(s & Hs & _) _].
  rewrite (unregister_at _ _ i s) by done.
  unfold active_slots; simpl.
  rewrite insert_take_drop by (by eapply lookup_lt_Some).
  rewrite delete_take_drop, !filter_app, filter_cons.
  by rewrite decide_False by (simpl; tauto).
Qed.

(** Every table a run reaches before the counter overflows satisfies the
    invariant. *)
Lemma reachable_inv ops :
  registrations ops < INT32_MAX → registry_inv (run init ops).1.
Proof.
  intros Hmax. apply run_issued; [apply init_inv|].
  change (next_handle init) with 1. lia.
Qed.

End managed_invariant.

(** ** The managed registry: handles, order of calls, capacity *)
Section managed_registry.
Import Managed.

Implicit Types (r : registry) (s t : managed_callback_t) (i j : nat).

(** C1: in any run of the registry in which the handle counter does not
    overflow, the handles returned by the successful registrations are
    strictly increasing in call order, hence pairwise distinct, and no value
    is handed out twice; all of them are positive. *)
Theorem handles_strictly_increasing (ops : list op) :
  registrations ops < INT32_MAX →
  StronglySorted Z.lt (issued (run init ops).2) ∧
  NoDup (issued (run init ops).2) ∧
  Forall (λ h, 0 < h) (issued (run init ops).2).
Proof.
  intros Hmax.
  destruct (run_issued ops init init_inv) as (_ & _ & Hall & Hsort).
  { change (next_handle init) with 1. lia. }
  split_and!; [done|by apply sorted_lt_NoDup|].
  eapply Forall_impl; [done|]. simpl. change (next_handle init) with 1. lia.
Qed.

Lemma handles_strictly_increasing_witness :
  let ops := replicate 16 (Register 5 6) ++ [Unregister 3; Register 7 8] in
  registrations ops < INT32_MAX ∧
  StronglySorted Z.lt (issued (run init ops).2) ∧
  NoDup (issued (run init ops).2) ∧
  Forall (λ h, 0 < h) (issued (run init ops).2).
Proof.
  split; [reflexivity|].
  apply (handles_strictly_increasing
           (replicate 16 (Register 5 6) ++ [Unregister 3; Register 7 8])).
  reflexivity.
Defined.




(** C3: when every one of the 16 slots is active, register_managed_callback
    returns -1 and leaves the table and the handle counter as they were, so
    that every handle issued before still revokes and triggers as before. *)
Theorem register_on_full_table (r : registry) (cb ud : Z) :
  table_ok r →
  Forall (λ s, active s ≠ 0) (managed_callbacks r) →
  register_managed_callback cb ud r = (r, -1) ∧
  (∀ h, unregister_managed_callback h (register_managed_callback cb ud r).1 =
        unregister_managed_callback h r) ∧
  (∀ value, trigger_managed_callbacks value (register_managed_callback cb ud r).1 =
            trigger_managed_callbacks value r).
Proof.
  intros Hlen Hfull. rewrite register_full by done. done.
Qed.

Lemma register_on_full_table_witness :
  let r := (run init (replicate 16 (Register 5 6))).1 in
  table_ok r ∧
  Forall (λ s, active s ≠ 0) (managed_callbacks r) ∧
  register_managed_callback 7 8 r = (r, -1).
Proof.
  assert (table_ok (run init (replicate 16 (Register 5 6))).1) as Hlen
    by compute_done.
  assert (Forall (λ s, active s ≠ 0)
            (managed_callbacks (run init (replicate 16 (Register 5 6))).1)) as Hfull
    by compute_done.
  split_and!; [done..|].
  apply (register_on_full_table _ 7 8 Hlen Hfull).
Defined.

(** C4, as the code has it: register_managed_callback scans the slots from
    index 0 upwards and takes the first inactive one, which is always the
    inactive slot of lowest index; it writes the new entry there, changes no
    other slot and returns the handle it wrote. *)
Theorem register_takes_lowest_free (r : registry) (cb ud : Z) :
  table_ok r →
  (∃ s, s ∈ managed_callbacks r ∧ active s = 0) →
  ∃ i, first_free r i ∧
       (register_managed_callback cb ud r).2 = next_handle r ∧
       managed_callbacks (register_managed_callback cb ud r).1 !! i =
         Some {| handle := next_handle r; callback := cb; user_data := ud; active := 1 |} ∧
       ∀ j, j ≠ i →
         managed_callbacks (register_managed_callback cb ud r).1 !! j =
         managed_callbacks r !! j.
Proof.
  intros Hlen (s & Hin & Hs).
  destruct (full_or_free r) as [Hfull|[i Hi]].
  { rewrite Forall_forall in Hfull. by destruct (Hfull s Hin). }
  exists i. rewrite (register_at _ _ _ i) by done. simpl.
  pose proof Hi as [(t & Ht & _) _].
  split_and!; [done..| |].
  - apply list_lookup_insert_eq. by eapply lookup_lt_Some.
  - intros j Hj. by apply list_lookup_insert_ne.
Qed.

Lemma register_takes_lowest_free_witness :
  let r := (run init [Register 5 6; Register 7 8; Register 9 10;
                      Unregister 3; Unregister 1]).1 in
  table_ok r ∧
  (∃ s, s ∈ managed_callbacks r ∧ active s = 0) ∧
  ∃ i, first_free r i ∧
       (register_managed_callback 11 12 r).2 = next_handle r ∧
       managed_callbacks (register_managed_callback 11 12 r).1 !! i =
         Some {| handle := next_handle r; callback := 11; user_data := 12; active := 1 |} ∧
       ∀ j, j ≠ i →
         managed_callbacks (register_managed_callback 11 12 r).1 !! j =
         managed_callbacks r !! j.
Proof.
  assert (table_ok (run init [Register 5 6; Register 7 8; Register 9 10;
                              Unregister 3; Unregister 1]).1) as Hlen
    by compute_done.
  assert (∃ s, s ∈ managed_callbacks
                     (run init [Register 5 6; Register 7 8; Register 9 10;
                                Unregister 3; Unregister 1]).1 ∧ active s = 0) as Hfree.
  { exists (Slot 1 5 6 0). split; [|reflexivity]. vm_compute. constructor. }
  split_and!; [done..|].
  apply (register_takes_lowest_free _ 11 12 Hlen Hfree).
Defined.

(** C4, as the claim has it, fails: no run leads to a table in which a
    registration goes to a slot above an inactive one. *)
Lemma register_never_above_a_free_slot : ¬ registers_above_a_free_slot.
Proof.
  intros (ops & cb & ud & i & j & si & sj & H). cbn zeta in H.
  pose proof (run_table_ok ops init eq_refl) as Hlen.
  set (r := (run init ops).1) in *. clearbody r.
  destruct (full_or_free r) as [Hfull|[k Hk]].
  - rewrite register_full in H by done.
    destruct H as (Hi & Hsi & _). rewrite Forall_lookup in Hfull.
    by destruct (Hfull i si Hi).
  - rewrite (register_at _ _ _ k) in H by done.
    destruct H as (Hi & Hsi & Hj & Hsj & Hlt & Hnew). simpl in Hnew.
    destruct (decide (k = i)) as [->|Hne].
    + destruct Hk as [_ Hmin]. by destruct (Hmin j sj Hlt Hj).
    + rewrite list_lookup_insert_ne in Hnew by done.
      rewrite Hi in Hnew. by simplify_eq.
Qed.

(** C5, as the code has it: when unregister_managed_callback(handle) finds
    an active slot carrying the handle, it sets that slot's active flag to 0
    and leaves the slot's handle, callback and context as they were; no other
    slot and not the handle counter change. *)
Theorem unregister_deactivates_only (r : registry) (h : Z) (i : nat)
    (s : managed_callback_t) :
  table_ok r → revoked_at r h i → managed_callbacks r !! i = Some s →
  managed_callbacks (unregister_managed_callback h r) !! i =
    Some {| handle := handle s; callback := callback s;
            user_data := user_data s; active := 0 |} ∧
  (∀ j, j ≠ i → managed_callbacks (unregister_managed_callback h r) !! j =
                managed_callbacks r !! j) ∧
  next_handle (unregister_managed_callback h r) = next_handle r.
Proof.
  intros Hlen Hi Hs. rewrite (unregister_at _ _ i s) by done. simpl.
  split_and!; [|intros j Hj; by apply list_lookup_insert_ne|done].
  apply list_lookup_insert_eq. by eapply lookup_lt_Some.
Qed.

Lemma revoked_at_example : revoked_at (run init [Register 101 11]).1 1 0.
Proof.
  split.
  - exists (Slot 1 101 11 1). by vm_compute.
  - intros j t Hj. lia.
Defined.

Lemma unregister_deactivates_only_witness :
  let r := (run init [Register 101 11]).1 in
  table_ok r ∧ revoked_at r 1 0 ∧
  managed_callbacks r !! 0%nat = Some (Slot 1 101 11 1) ∧
  managed_callbacks (unregister_managed_callback 1 r) !! 0%nat =
    Some (Slot 1 101 11 0).
Proof.
  assert (table_ok (run init [Register 101 11]).1) as Hlen
    by compute_done.
  assert (managed_callbacks (run init [Register 101 11]).1 !! 0%nat =
          Some (Slot 1 101 11 1)) as Hs
    by (vm_compute; reflexivity).
  split_and!; [done|exact revoked_at_example|done|].
  apply (unregister_deactivates_only _ 1 0 _ Hlen revoked_at_example Hs).
Defined.

(** C5, as the claim has it, fails: after one registration of callback 101
    with context 11, revoking handle 1 leaves 101 and 11 in slot 0. *)
Lemma unregister_keeps_references :
  ¬ unregister_clears (run init [Register 101 11]).1 1.
Proof.
  intros Hclears.
  destruct (Hclears 0%nat revoked_at_example) as (s' & Hs' & _ & Hcb & _).
  vm_compute in Hs'. injection Hs' as <-. discriminate Hcb.
Qed.

(** C6: unregister_managed_callback returns for every table and handle (it
    is a function, of result type void).  When no active slot carries the
    handle it leaves the table and the counter as they are; in a table whose
    active handles are distinct this is the case after a revocation of the
    same handle, so a second call changes nothing.  After a revocation that
    found slot i, a trigger goes through the active slots of the table
    without slot i, and, the active handles being distinct, none of the
    slots it goes through carries the handle. *)
Theorem unregister_idempotent :
  (∀ r h, table_ok r →
     Forall (λ s, ¬ (active s ≠ 0 ∧ handle s = h)) (managed_callbacks r) →
     unregister_managed_callback h r = r) ∧
  (∀ r h, table_ok r → handles_distinct r →
     unregister_managed_callback h (unregister_managed_callback h r) =
     unregister_managed_callback h r) ∧
  (∀ r h i value, table_ok r → revoked_at r h i →
     trigger_managed_callbacks value (unregister_managed_callback h r) =
     invoke_all (call_of value <$>
                 filter (λ s, active s ≠ 0) (delete i (managed_callbacks r)))) ∧
  (∀ r h value, table_ok r → handles_distinct r →
     trigger_managed_callbacks value (unregister_managed_callback h r) =
       invoke_all (call_of value <$> active_slots (unregister_managed_callback h r)) ∧
     Forall (λ s, handle s ≠ h) (active_slots (unregister_managed_callback h r))).
Proof.
  assert (∀ r h, table_ok r → table_ok (unregister_managed_callback h r)) as Hok.
  { intros r h Hlen. exact (run_table_ok [Unregister h] r Hlen). }
  split_and!.
  - intros r h Hlen Habs. by apply unregister_absent.
  - intros r h Hlen Hdist. apply unregister_absent; [by apply Hok|].
    by apply unregister_gone.
  - intros r h i value Hlen Hi.
    rewrite trigger_calls by (by apply Hok).
    by rewrite (unregister_active_slots _ _ i).
  - intros r h value Hlen Hdist. split.
    + apply trigger_calls. by apply Hok.
    + pose proof (unregister_gone h r Hlen Hdist) as Hgone.
      unfold active_slots. apply Forall_forall.
      intros s [Hact Hin]%list_elem_of_filter Hh.
      rewrite Forall_forall in Hgone. by apply (Hgone s Hin).
Qed.

Lemma unregister_idempotent_witness :
  let r := (run init [Register 101 11; Register 102 12]).1 in
  table_ok r ∧ handles_distinct r ∧ revoked_at r 1 0 ∧
  Forall (λ s, ¬ (active s ≠ 0 ∧ handle s = 5)) (managed_callbacks r) ∧
  unregister_managed_callback 5 r = r ∧
  unregister_managed_callback 1 (unregister_managed_callback 1 r) =
    unregister_managed_callback 1 r ∧
  trigger_managed_callbacks 7 (unregister_managed_callback 1 r) =
    invoke_all (call_of 7 <$>
                filter (λ s, active s ≠ 0) (delete 0%nat (managed_callbacks r))) ∧
  Forall (λ s, handle s ≠ 1) (active_slots (unregister_managed_callback 1 r)).
Proof.
  assert (table_ok (run init [Register 101 11; Register 102 12]).1) as Hlen
    by compute_done.
  assert (handles_distinct (run init [Register 101 11; Register 102 12]).1) as Hdist.
  { apply inv_distinct, reachable_inv. reflexivity. }
  assert (revoked_at (run init [Register 101 11; Register 102 12]).1 1 0) as Hrev.
  { split.
    - exists (Slot 1 101 11 1). by vm_compute.
    - intros j t Hj. lia. }
  assert (Forall (λ s, ¬ (active s ≠ 0 ∧ handle s = 5))
            (managed_callbacks (run init [Register 101 11; Register 102 12]).1)) as Habs
    by compute_done.
  destruct unregister_idempotent as (Hnoop & Htwice & Hskip & Hgone).
  split_and!; [done..| | | |].
  - by apply Hnoop.
  - by apply Htwice.
  - by apply Hskip.
  - by apply (Hgone _ 1 7).
Defined.

(** C10: register_managed_callback does not look at its callback argument.
    On a table of 16 slots with an inactive one, registering a null callback
    succeeds: it returns the value of the handle counter and stores the null
    callback, with the context, in the first inactive slot.  In every table a
    run reaches before the counter overflows that handle is positive and
    above every handle issued before and every handle in the table.  The
    simple and the with-data registries do nothing when given a null
    callback. *)
Theorem register_accepts_null_callback :
  (∀ r ud, table_ok r → (∃ s, s ∈ managed_callbacks r ∧ active s = 0) →
     ∃ i, first_free r i ∧
          (register_managed_callback NULL ud r).2 = next_handle r ∧
          managed_callbacks (register_managed_callback NULL ud r).1 !! i =
            Some {| handle := next_handle r; callback := NULL;
                    user_data := ud; active := 1 |}) ∧
  (∀ ops, registrations ops < INT32_MAX →
     table_ok (run init ops).1 ∧
     0 < next_handle (run init ops).1 ∧
     Forall (λ h, h < next_handle (run init ops).1) (issued (run init ops).2) ∧
     Forall (λ s, handle s < next_handle (run init ops).1)
            (managed_callbacks (run init ops).1)) ∧
  (∀ sr, Simple.register_simple_callback NULL sr = sr) ∧
  (∀ dr ud, WithData.register_callback_with_data NULL ud dr = dr).
Proof.
  split_and!.
  - intros r ud Hlen (s & Hin & Hs).
    destruct (full_or_free r) as [Hfull|[i Hi]].
    { rewrite Forall_forall in Hfull. by destruct (Hfull s Hin). }
    exists i. rewrite (register_at _ _ _ i) by done. simpl.
    pose proof Hi as [(t & Ht & _) _].
    split_and!; [done..|].
    apply list_lookup_insert_eq. by eapply lookup_lt_Some.
  - intros ops Hmax.
    destruct (run_issued ops init init_inv) as ([Hlen Hnext Hbelow _] & _ & Hall & _).
    { change (next_handle init) with 1. lia. }
    split_and!; [done|lia| |done].
    eapply Forall_impl; [done|]. simpl. lia.
  - intros sr. unfold Simple.register_simple_callback.
    by rewrite decide_False by tauto.
  - intros dr ud. unfold WithData.register_callback_with_data.
    by rewrite decide_False by tauto.
Qed.

Lemma register_accepts_null_callback_witness :
  let ops := [Register 101 11; Register 102 12; Unregister 1] in
  let r := (run init ops).1 in
  table_ok r ∧ (∃ s, s ∈ managed_callbacks r ∧ active s = 0) ∧
  registrations ops < INT32_MAX ∧
  (∃ i, first_free r i ∧
        (register_managed_callback NULL 9 r).2 = next_handle r ∧
        managed_callbacks (register_managed_callback NULL 9 r).1 !! i =
          Some {| handle := next_handle r; callback := NULL;
                  user_data := 9; active := 1 |}) ∧
  0 < next_handle r.
Proof.
  assert (table_ok (run init [Register 101 11; Register 102 12; Unregister 1]).1)
    as Hlen
    by compute_done.
  assert (∃ s, s ∈ managed_callbacks
                     (run init [Register 101 11; Register 102 12; Unregister 1]).1
               ∧ active s = 0) as Hfree.
  { exists (Slot 1 101 11 0). split; [|reflexivity]. vm_compute. constructor. }
  assert (registrations [Register 101 11; Register 102 12; Unregister 1] < INT32_MAX)
    as Hmax
    by reflexivity.
  destruct register_accepts_null_callback as (Hnull & Hfresh & _ & _).
  split_and!; [done..| |].
  - by apply Hnull.
  - by apply Hfresh.
Defined.

End managed_registry.

(** ** [c_divide] *)

Lemma quot_in_int32 a b :
  in_int32 a → in_int32 b → b ≠ 0 → ¬ (a = INT32_MIN ∧ b = -1) → in_int32 (a ÷ b).
Proof.
  unfold in_int32, INT32_MIN, INT32_MAX. intros Ha Hb Hb0 Hov.
  pose proof (Z.quot_abs a b Hb0) as Habs.
  assert (Z.abs a ÷ Z.abs b <= Z.abs a) as Hle.
  { rewrite Z.quot_div_nonneg by lia.
    apply Z.div_le_upper_bound; [lia|]. nia. }
  destruct (decide (Z.abs b = 1)) as [Hb1|Hb1].
  - rewrite Hb1, Z.quot_1_r in Habs.
    assert (b = 1 ∨ b = -1) as [->| ->] by lia.
    + rewrite Z.quot_1_r. lia.
    + assert (a ≠ - 2 ^ 31) by tauto. lia.
  - assert (Z.abs a ÷ Z.abs b <= 2 ^ 30) as Hhalf.
    { rewrite Z.quot_div_nonneg by lia.
      apply Z.div_le_upper_bound; [lia|]. nia. }
    lia.
Qed.

(** C8, as the code has it: with a non-null output, c_divide(a, b, result)
    returns InvalidInput (-2) and leaves the output as it was when b = 0;
    when b is not 0 and the pair is not (INT32_MIN, -1), it returns Success
    (0) and writes the quotient truncated toward zero, which is an int32_t;
    c_divide(10, 2) gives 5. *)
Theorem c_divide_cases (a b old : Z) :
  in_int32 a → in_int32 b →
  (b = 0 → c_divide a b (Some old) = Some (-2, Some old)) ∧
  (b ≠ 0 → ¬ (a = INT32_MIN ∧ b = -1) →
     c_divide a b (Some old) = Some (0, Some (a ÷ b)) ∧ in_int32 (a ÷ b)) ∧
  c_divide 10 2 (Some old) = Some (0, Some 5) ∧
  c_divide 10 0 (Some old) = Some (-2, Some old).
Proof.
  intros Ha Hb. split_and!; [| |done..].
  - intros ->. done.
  - intros Hb0 Hov. split; [|by apply quot_in_int32].
    unfold c_divide, int32_div.
    rewrite decide_False by done. by rewrite decide_False by tauto.
Qed.

Lemma c_divide_cases_witness :
  in_int32 (-7) ∧ in_int32 2 ∧
  c_divide (-7) 2 (Some 99) = Some (0, Some (-3)) ∧
  c_divide (-7) 0 (Some 99) = Some (-2, Some 99).
Proof.
  assert (in_int32 (-7)) as Ha by compute_done.
  assert (in_int32 2) as Hb by compute_done.
  assert (in_int32 0) as Hz by compute_done.
  split_and!; [done..| |].
  - apply (c_divide_cases (-7) 2 99 Ha Hb); [lia|].
    intros [_ H]. discriminate H.
  - by apply (c_divide_cases (-7) 0 99 Ha Hz).
Defined.

(** C8, as the claim has it, fails at a = INT32_MIN, b = -1: b is not 0, and
    the function does not return Success with the quotient written. *)
Lemma c_divide_overflow : ¬ divide_as_specified INT32_MIN (-1) 0.
Proof.
  intros [_ H]. specialize (H ltac:(lia)). vm_compute in H. discriminate H.
Qed.

(** ** The opaque connection *)
Section connection.
Import Db.
Local Open Scope string_scope.

Implicit Types (c : db_connection) (q : string).

Lemma append_String a p s : String a p ++ s = String a (p ++ s).
Proof. reflexivity. Qed.

Lemma append_empty s : "" ++ s = s.
Proof. reflexivity. Qed.

Lemma is_prefix_spec p s : is_prefix p s = true ↔ ∃ post, s = p ++ post.
Proof.
  revert s. induction p as [|a p IH]; intros s; simpl.
  - split; [|done]. intros _. by exists s.
  - destruct s as [|b s].
    + split; [done|]. intros [post Hpost]. by rewrite append_String in Hpost.
    + destruct (decide (a = b)) as [->|Hab].
      * rewrite IH. split; intros [post Hpost]; exists post.
        -- rewrite append_String. congruence.
        -- rewrite append_String in Hpost. congruence.
      * split; [done|]. intros [post Hpost].
        rewrite append_String in Hpost. congruence.
Qed.

Lemma is_prefix_here n post : is_prefix n (n ++ post) = true.
Proof. apply is_prefix_spec. eauto. Qed.

Lemma strstr_found h n :
  is_Some (strstr h n) ↔ ∃ pre post, h = pre ++ n ++ post.
Proof.
  induction h as [|a h IH]; simpl.
  - destruct (is_prefix n "") eqn:Hp.
    + apply is_prefix_spec in Hp as [post Hpost].
      split; [|by eauto]. intros _. by exists "", post.
    + split; [by intros [? ?]|]. intros (pre & post & Heq).
      destruct pre as [|b pre]; [|by rewrite append_String in Heq].
      rewrite append_empty in Heq. by rewrite Heq, is_prefix_here in Hp.
  - destruct (is_prefix n (String a h)) eqn:Hp.
    + apply is_prefix_spec in Hp as [post Hpost].
      split; [|by eauto]. intros _. by exists "", post.
    + rewrite IH. split.
      * intros (pre & post & ->). by exists (String a pre), post.
      * intros (pre & post & Heq). destruct pre as [|b pre].
        { rewrite append_empty in Heq. by rewrite Heq, is_prefix_here in Hp. }
        rewrite append_String in Heq. injection Heq as -> ->. eauto.
Qed.

Lemma strstr_marker q : is_Some (strstr q "ERROR") ↔ has_marker q.
Proof. apply strstr_found. Qed.

(** A call on an object whose flag is set keeps the flag and stays out of
    the branch of the flag. *)
Lemma db_execute_connected c sql :
  connected c ≠ 0 → last_error c ≠ "Not connected" →
  ∃ c' out code,
    db_execute (Some c) sql = (Some c', out, code) ∧
    connected c' = connected c ∧
    code ≠ ERROR_INVALID_INPUT ∧ last_error c' ≠ "Not connected".
Proof.
  intros Hc He. destruct sql as [q|]; simpl.
  - rewrite decide_False by done.
    destruct (strstr q "ERROR"); eexists _, _, _; by split_and!.
  - eexists _, _, _; by split_and!.
Qed.

Lemma marker_absent_example : ¬ has_marker "SELECT 1".
Proof. rewrite <- strstr_marker. by intros [? ?]. Qed.

Lemma marker_present_example : has_marker "DO ERROR".
Proof. by exists "DO ", "". Qed.

(** C7: db_execute returns NullPointer and changes nothing, printing
    nothing, when the connection or the command is absent; on a connection
    whose flag is 0 it stores "Not connected" in last_error and returns
    InvalidInput; otherwise it adds 1 to query_count (as an int) and, when the
    command contains ERROR, stores a non-empty message in last_error and
    returns ComputationFailed, else empties last_error and returns Success.
    The messages fit the 256 bytes of last_error.  Opening "x" and executing
    "SELECT 1" gives Success and an empty last error; executing "DO ERROR"
    then gives ComputationFailed and a non-empty one. *)
Theorem db_execute_cases :
  (∀ conn sql, conn = None ∨ sql = None →
     db_execute conn sql = (conn, [], ERROR_NULL_POINTER)) ∧
  (∀ c q, connected c = 0 →
     db_execute (Some c) (Some q) =
       (Some {| path := path c; connected := connected c;
                last_error := "Not connected"; query_count := query_count c |},
        [], ERROR_INVALID_INPUT)) ∧
  (∀ c q, connected c ≠ 0 → has_marker q →
     ∃ c' out,
       db_execute (Some c) (Some q) = (Some c', out, ERROR_COMPUTATION_FAILED) ∧
       query_count c' = wrap32 (query_count c + 1) ∧
       (INT32_MIN <= query_count c < INT32_MAX → query_count c' = query_count c + 1) ∧
       path c' = path c ∧ connected c' = connected c ∧
       last_error c' ≠ "" ∧ (String.length (last_error c') < 256)%nat) ∧
  (∀ c q, connected c ≠ 0 → ¬ has_marker q →
     ∃ c' out,
       db_execute (Some c) (Some q) = (Some c', out, SUCCESS) ∧
       query_count c' = wrap32 (query_count c + 1) ∧
       (INT32_MIN <= query_count c < INT32_MAX → query_count c' = query_count c + 1) ∧
       path c' = path c ∧ connected c' = connected c ∧
       last_error c' = "") ∧
  (∀ m s, let h := (db_open true s (Some "x")).1 in
     let r1 := db_execute h (Some "SELECT 1") in
     let r2 := db_execute r1.1.1 (Some "DO ERROR") in
     r1.2 = SUCCESS ∧ db_get_last_error r1.1.1 = "" ∧
     r2.2 = ERROR_COMPUTATION_FAILED ∧ db_get_last_error r2.1.1 ≠ "" ∧
     (db_open false m (Some "x")).1 = None).
Proof.
  split_and!.
  - intros conn sql [-> | ->]; [done|]. by destruct conn.
  - intros c q Hc. simpl. by rewrite decide_True.
  - intros c q Hc [r Hr]%strstr_marker. simpl.
    rewrite decide_False, Hr by done.
    eexists _, _. split_and!; try done; simpl.
    + intros Hq. by apply wrap32_succ.
    + lia.
  - intros c q Hc Hq. simpl.
    rewrite decide_False by done.
    destruct (strstr q "ERROR") as [r|] eqn:Hr.
    { destruct Hq. apply strstr_marker. by rewrite Hr. }
    eexists _, _. split_and!; try done; simpl.
    intros Hn. by apply wrap32_succ.
  - intros m s. by vm_compute.
Qed.

Lemma db_execute_cases_witness :
  let c := {| path := Some "x"; connected := 1; last_error := ""; query_count := 41 |} in
  let d := {| path := Some "x"; connected := 0; last_error := ""; query_count := 41 |} in
  connected c ≠ 0 ∧ connected d = 0 ∧
  has_marker "DO ERROR" ∧ ¬ has_marker "SELECT 1" ∧
  db_execute None (Some "SELECT 1") = (None, [], ERROR_NULL_POINTER) ∧
  (db_execute (Some d) (Some "SELECT 1")).2 = ERROR_INVALID_INPUT ∧
  (db_execute (Some c) (Some "DO ERROR")).2 = ERROR_COMPUTATION_FAILED ∧
  (db_execute (Some c) (Some "SELECT 1")).2 = SUCCESS.
Proof.
  destruct db_execute_cases as (Hnull & Hclosed & Hfail & Hok & _).
  split_and!; [discriminate|reflexivity|exact marker_present_example
              |exact marker_absent_example|..].
  - apply Hnull. by left.
  - by rewrite Hclosed.
  - destruct (Hfail (Conn (Some "x") 1 "" 41) "DO ERROR") as (c' & out & -> & _);
      [discriminate|exact marker_present_example|reflexivity].
  - destruct (Hok (Conn (Some "x") 1 "" 41) "SELECT 1") as (c' & out & -> & _);
      [discriminate|exact marker_absent_example|reflexivity].
Defined.

(** C9: a connection made by db_open has connected = 1; db_execute never
    changes the flag, db_get_last_error changes nothing and db_close leaves
    no object.  So over any series of db_execute calls on a connection from
    db_open every call is carried out with the flag at 1, none returns
    InvalidInput and last_error never reads "Not connected". *)
Theorem connected_stays_set :
  (∀ m s p c out, db_open m s p = (Some c, out) → connected c = 1) ∧
  (∀ c sql, ∃ c' out code,
     db_execute (Some c) sql = (Some c', out, code) ∧ connected c' = connected c) ∧
  (∀ conn, (db_close conn).1 = None) ∧
  (∀ m s p c out sqls, db_open m s p = (Some c, out) →
     length (execute_all c sqls) = length sqls ∧
     Forall (λ cc, connected cc.1 = 1 ∧ cc.2 ≠ ERROR_INVALID_INPUT ∧
                   last_error cc.1 ≠ "Not connected")
            (execute_all c sqls)).
Proof.
  assert (∀ m s p c out, db_open m s p = (Some c, out) →
            connected c = 1 ∧ last_error c = "") as Hopen.
  { intros m s [p|] c out; simpl; [|done].
    destruct m; [|done]. intros [= <- _]. done. }
  split_and!.
  - intros m s p c out Ho. by apply (Hopen m s p c out).
  - intros c [q|]; simpl.
    + destruct (decide (connected c = 0)); [by eexists _, _, _|].
      destruct (strstr q "ERROR"); by eexists _, _, _.
    + by eexists _, _, _.
  - by intros [c|].
  - intros m s p c out sqls [Hc He]%Hopen.
    assert (last_error c ≠ "Not connected") as Hne by (by rewrite He).
    clear He. revert c Hc Hne.
    induction sqls as [|q sqls IH]; intros c Hc Hne; [done|].
    cbn [execute_all].
    destruct (db_execute_connected c q) as (c' & o & code & Hex & Hc' & Hcode & He');
      [by rewrite Hc|done|].
    rewrite Hex. cbn [length]. rewrite Hc in Hc'.
    destruct (IH c' Hc' He') as [Hlen Hall].
    split; [by rewrite Hlen|]. by constructor.
Qed.

Lemma connected_stays_set_witness :
  let sqls := [Some "SELECT 1"; Some "DO ERROR"; None; Some "SELECT 2"] in
  ∃ c out, db_open true true (Some "x") = (Some c, out) ∧
    connected c = 1 ∧
    length (execute_all c sqls) = length sqls ∧
    Forall (λ cc, connected cc.1 = 1 ∧ cc.2 ≠ ERROR_INVALID_INPUT ∧
                  last_error cc.1 ≠ "Not connected")
           (execute_all c sqls).
Proof.
  destruct connected_stays_set as (Hopen & _ & _ & Hall).
  assert (db_open true true (Some "x") =
          (Some (Conn (Some "x") 1 "" 0), (db_open true true (Some "x")).2)) as Ho
    by reflexivity.
  exists (Conn (Some "x") 1 "" 0), (db_open true true (Some "x")).2.
  split; [exact Ho|].
  split; [exact (Hopen _ _ _ _ _ Ho)|].
  exact (Hall _ _ _ _ _ [Some "SELECT 1"; Some "DO ERROR"; None; Some "SELECT 2"] Ho).
Defined.

End connection.

(** * Further properties *)

(** ** Pattern 1: [process_struct], [c_add], [c_abs] *)

Lemma wrap32_range z : in_int32 (wrap32 z).
Proof.
  unfold in_int32, wrap32, INT32_MIN, INT32_MAX.
  pose proof (Z.mod_pos_bound (z + 2 ^ 31) (2 ^ 32)). lia.
Qed.

Lemma wrapu32_add_l x y : Abi.wrapu32 (Abi.wrapu32 x + y) = Abi.wrapu32 (x + y).
Proof. unfold Abi.wrapu32. by rewrite Zplus_mod_idemp_l. Qed.

(** X1: for a struct whose fields are in the ranges of their types,
    process_struct returns a + b + c when the sum fits an int32_t, and in
    general the int32_t congruent to the sum modulo 2^32; it returns -1, the
    value it returns for a null pointer, exactly when the sum is 2^32 - 1. *)
Theorem process_struct_sum (s : Abi.CStruct) :
  Abi.struct_ok s →
  let sum := Abi.a s + Abi.b s + Abi.c s in
  (sum <= INT32_MAX → Abi.process_struct (Some s) = sum) ∧
  in_int32 (Abi.process_struct (Some s)) ∧
  (Abi.process_struct (Some s) - sum) mod 2 ^ 32 = 0 ∧
  (Abi.process_struct (Some s) = Abi.process_struct None ↔ sum = 2 ^ 32 - 1).
Proof.
  intros (Ha & Hb & Hc) sum. unfold Abi.process_struct.
  rewrite wrapu32_add_l. fold sum.
  assert (0 <= sum < 2 ^ 32 + 2 ^ 17) as Hsum by (subst sum; lia).
  clearbody sum. unfold Abi.wrapu32, wrap32, in_int32, INT32_MIN, INT32_MAX.
  split_and!; intros; Z.div_mod_to_equations; lia.
Qed.

Lemma process_struct_sum_witness :
  let s := Abi.Struct 255 4294967040 0 in
  Abi.struct_ok s ∧
  Abi.process_struct (Some s) = Abi.process_struct None.
Proof.
  assert (Abi.struct_ok (Abi.Struct 255 4294967040 0)) as Hok by compute_done.
  split; [done|].
  by apply (process_struct_sum (Abi.Struct 255 4294967040 0) Hok).
Defined.

(** X2: on int32_t arguments c_add returns an int32_t, the sum whenever the
    sum is one, and does not depend on the order of its arguments. *)
Theorem c_add_sum (x y : Z) :
  in_int32 x → in_int32 y →
  in_int32 (Abi.c_add x y) ∧
  (in_int32 (x + y) → Abi.c_add x y = x + y) ∧
  Abi.c_add x y = Abi.c_add y x.
Proof.
  intros Hx Hy. unfold Abi.c_add. split_and!.
  - apply wrap32_range.
  - apply wrap32_id.
  - by rewrite Z.add_comm.
Qed.

Lemma c_add_sum_witness :
  in_int32 2000000000 ∧ in_int32 (-3) ∧ Abi.c_add 2000000000 (-3) = 1999999997.
Proof.
  assert (in_int32 2000000000) as Hx by compute_done.
  assert (in_int32 (-3)) as Hy by compute_done.
  assert (in_int32 (2000000000 + -3)) as Hs by compute_done.
  split_and!; [done..|].
  by apply (c_add_sum 2000000000 (-3) Hx Hy).
Defined.

(** X3: for every int32_t n other than INT32_MIN, c_abs returns the absolute
    value of n, which is an int32_t that is not negative; c_abs gives the
    same for -n, and applying it again changes nothing. *)
Theorem c_abs_value (n : Z) :
  INT32_MIN < n <= INT32_MAX →
  Abi.c_abs n = Z.abs n ∧
  0 <= Abi.c_abs n <= INT32_MAX ∧
  Abi.c_abs (- n) = Abi.c_abs n ∧
  Abi.c_abs (Abi.c_abs n) = Abi.c_abs n.
Proof.
  intros Hn. unfold INT32_MIN, INT32_MAX in Hn.
  assert (∀ m, - 2 ^ 31 < m <= 2 ^ 31 - 1 → Abi.c_abs m = Z.abs m) as Habs.
  { intros m Hm. unfold Abi.c_abs. destruct (decide (m < 0)); [|lia].
    rewrite wrap32_id; [lia|]. unfold in_int32, INT32_MIN, INT32_MAX. lia. }
  rewrite (Habs n), (Habs (- n)), (Habs (Z.abs n)) by lia.
  unfold INT32_MAX. lia.
Qed.

Lemma c_abs_value_witness :
  INT32_MIN < -7 <= INT32_MAX ∧ Abi.c_abs (-7) = 7.
Proof.
  assert (INT32_MIN < -7 <= INT32_MAX) as Hn by compute_done.
  split; [done|]. by apply (c_abs_value (-7) Hn).
Defined.

(** ** Pattern 2: [c_string_concat] *)
Section strings.
Import CStr.
Local Open Scope string_scope.

Implicit Types (dst buf : list ascii) (src s : string).






End strings.

(** ** Pattern 4: [c_error_message] and the rounding of [c_divide] *)

(** X5: c_error_message gives a message that is not empty for every code;
    the four codes of mylib.h have four different messages, and a code gets
    "Unknown error" exactly when it is none of them. *)
Theorem c_error_message_total :
  (∀ code, c_error_message code ≠ ""%string) ∧
  (∀ code, c_error_message code = "Unknown error"%string ↔
           ¬ (code = SUCCESS ∨ code = ERROR_NULL_POINTER ∨
              code = ERROR_INVALID_INPUT ∨ code = ERROR_COMPUTATION_FAILED)) ∧
  (∀ c1 c2, c_error_message c1 = c_error_message c2 →
            c_error_message c1 ≠ "Unknown error"%string → c1 = c2).
Proof.
  split_and!.
  - intros code. unfold c_error_message. by repeat case_decide.
  - intros code. unfold c_error_message. repeat case_decide; split; try done; tauto.
  - intros c1 c2. unfold c_error_message.
    repeat case_decide; try done; congruence.
Qed.

Lemma c_error_message_total_witness :
  c_error_message (-2) = c_error_message ERROR_INVALID_INPUT ∧
  c_error_message (-2) ≠ "Unknown error"%string ∧
  c_error_message 7 = "Unknown error"%string.
Proof.
  destruct c_error_message_total as (_ & Hunknown & _).
  split_and!; [reflexivity|discriminate|].
  apply Hunknown. vm_compute. intros [H|[H|[H|H]]]; discriminate H.
Defined.

(** X6: a quotient q that c_divide writes is a / b rounded toward zero: the
    rest a - b * q is smaller than b in absolute value and is zero or has
    the sign of a; q is an int32_t whenever a and b are. *)
Theorem c_divide_rounds_toward_zero (a b old q : Z) :
  c_divide a b (Some old) = Some (SUCCESS, Some q) →
  b ≠ 0 ∧ Z.abs (a - b * q) < Z.abs b ∧ 0 <= a * (a - b * q) ∧
  (in_int32 a → in_int32 b → in_int32 q).
Proof.
  unfold c_divide, int32_div. intros H.
  destruct (decide (b = 0)) as [|Hb]; [done|].
  destruct (decide (b = 0 ∨ a = INT32_MIN ∧ b = -1)) as [|Hov]; [done|].
  injection H as <-.
  pose proof (Z.quot_rem' a b) as Hqr.
  pose proof (Z.rem_bound_abs a b Hb) as Hbound.
  pose proof (Z.rem_sign_mul a b Hb) as Hsign.
  replace (a - b * (a ÷ b)) with (Z.rem a b) by lia.
  split_and!; [done|lia|lia|].
  intros Ha Hb'. apply quot_in_int32; tauto.
Qed.

Lemma c_divide_rounds_toward_zero_witness :
  c_divide (-7) 2 (Some 0) = Some (SUCCESS, Some (-3)) ∧
  Z.abs (-7 - 2 * -3) < Z.abs 2 ∧ 0 <= -7 * (-7 - 2 * -3).
Proof.
  assert (c_divide (-7) 2 (Some 0) = Some (SUCCESS, Some (-3))) as H by reflexivity.
  split; [done|].
  destruct (c_divide_rounds_toward_zero (-7) 2 0 (-3) H) as (_ & Hlt & Hsign & _).
  by split.
Defined.

(** ** Pattern 3: the simple registry *)
Section simple_registry.
Import Simple.

Implicit Types (r : registry) (acc : list Z) (ops : list op).

Lemma take_S_insert {A} (l : list A) n x :
  (n < length l)%nat → take (S n) (<[n:=x]> l) = take n l ++ [x].
Proof.
  intros Hn. rewrite (take_S_r _ _ x).
  - by rewrite take_insert_ge.
  - by apply list_lookup_insert_eq.
Qed.

Lemma small_count_succ n :
  (n < MAX_CALLBACKS)%nat → wrap32 (Z.of_nat n + 1) = Z.of_nat (n + 1).
Proof.
  unfold MAX_CALLBACKS. intros Hn. rewrite wrap32_succ.
  - lia.
  - unfold INT32_MIN, INT32_MAX. lia.
Qed.

Lemma simple_step_holds r acc o :
  holds r acc → holds (step r o) (accepted acc [o]).
Proof.
  intros (Hlen & Hcount & Hcap & Htake & Hnn). destruct o as [f|]; simpl.
  - unfold register_simple_callback. rewrite Hcount.
    destruct (decide ((length acc < MAX_CALLBACKS)%nat ∧ f ≠ NULL)) as [[Hlt Hf]|Hno].
    + rewrite decide_True by (split; [lia|done]).
      rewrite Nat2Z.id. unfold holds; simpl.
      rewrite length_insert, length_app. simpl.
      split_and!; [done|by apply small_count_succ|lia| |].
      * rewrite Nat.add_1_r, take_S_insert by lia. by rewrite Htake.
      * apply Forall_app. split; [done|]. by constructor.
    + rewrite decide_False; [done|]. intros [Hlt Hf]. apply Hno. split; [lia|done].
  - unfold holds; simpl. split_and!; [done|done|lia|done|done].
Qed.

Lemma simple_accepted_cons acc o ops :
  accepted acc (o :: ops) = accepted (accepted acc [o]) ops.
Proof. by destruct o. Qed.

Lemma simple_run_holds ops r acc :
  holds r acc → holds (run r ops) (accepted acc ops).
Proof.
  revert r acc. induction ops as [|o ops IH]; intros r acc Hr; [done|].
  change (run r (o :: ops)) with (run (step r o) ops).
  rewrite simple_accepted_cons. by apply IH, simple_step_holds.
Qed.

Lemma simple_trigger_loop_calls n i value r :
  trigger_loop n i value r =
    invoke_all ((λ f, SimpleCall f value) <$> take n (drop i (simple_callbacks r))).
Proof.
  revert i. induction n as [|n IH]; intros i; simpl; [done|].
  destruct (simple_callbacks r !! i) as [f|] eqn:Hi.
  - rewrite (drop_S _ _ _ Hi). simpl.
    destruct (decide (f = NULL)); [done|]. by rewrite IH.
  - rewrite drop_ge; [|by apply lookup_ge_None]. by rewrite take_nil.
Qed.

Lemma simple_invoke_all_returns cs :
  Forall (λ c, sfn c ≠ NULL) cs → invoke_all cs = SimpleReturned cs.
Proof.
  induction 1 as [|c cs Hc _ IH]; simpl; [done|].
  rewrite decide_False by done. by rewrite IH.
Qed.

(** X7: after any series of register_simple_callback and
    clear_simple_callbacks calls on the zeroed registry,
    trigger_simple_callbacks(value) calls, oldest first, the callbacks
    registered since the last clear, leaving out the null ones and those
    offered when 16 were registered; it makes no call through a null
    pointer.  The count is the number of these callbacks, at most 16, and the
    array keeps its 16 entries. *)
Theorem simple_trigger_in_registration_order (ops : list op) (value : Z) :
  let r := run init ops in
  let fs := accepted [] ops in
  simple_callback_count r = Z.of_nat (length fs) ∧
  (length fs <= MAX_CALLBACKS)%nat ∧
  length (simple_callbacks r) = MAX_CALLBACKS ∧
  trigger_simple_callbacks value r = SimpleReturned ((λ f, SimpleCall f value) <$> fs).
Proof.
  intros r fs.
  assert (holds init []) as Hinit.
  { unfold holds. split_and!; [done|done|simpl; lia|done|done]. }
  destruct (simple_run_holds ops init [] Hinit) as (Hlen & Hcount & Hcap & Htake & Hnn).
  fold r fs in Hlen, Hcount, Hcap, Htake, Hnn.
  split_and!; [done..|].
  unfold trigger_simple_callbacks.
  rewrite simple_trigger_loop_calls, drop_0, Hcount, Nat2Z.id, Htake.
  apply simple_invoke_all_returns. by apply Forall_fmap.
Qed.

End simple_registry.

(** ** Pattern 3: the registry of callbacks with user data *)
Section data_registry.
Import WithData.

Implicit Types (r : registry) (acc : list callback_entry_t) (ops : list op).

Lemma data_step_holds r acc o :
  holds r acc → holds (step r o) (accepted acc [o]).
Proof.
  intros (Hlen & Hcount & Hcap & Htake & Hnn). destruct o as [cb ud|]; simpl.
  - unfold register_callback_with_data. rewrite Hcount.
    destruct (decide ((length acc < MAX_CALLBACKS)%nat ∧ cb ≠ NULL)) as [[Hlt Hf]|Hno].
    + rewrite decide_True by (split; [lia|done]).
      rewrite Nat2Z.id. unfold holds; simpl.
      rewrite length_insert, length_app. simpl.
      split_and!; [done|by apply small_count_succ|lia| |].
      * rewrite Nat.add_1_r, take_S_insert by lia. by rewrite Htake.
      * apply Forall_app. split; [done|]. by constructor.
    + rewrite decide_False; [done|]. intros [Hlt Hf]. apply Hno. split; [lia|done].
  - unfold holds; simpl. split_and!; [done|done|lia|done|done].
Qed.

Lemma data_accepted_cons acc o ops :
  accepted acc (o :: ops) = accepted (accepted acc [o]) ops.
Proof. by destruct o. Qed.

Lemma data_run_holds ops r acc :
  holds r acc → holds (run r ops) (accepted acc ops).
Proof.
  revert r acc. induction ops as [|o ops IH]; intros r acc Hr; [done|].
  change (run r (o :: ops)) with (run (step r o) ops).
  rewrite data_accepted_cons. by apply IH, data_step_holds.
Qed.

Lemma data_trigger_loop_calls n i value r :
  trigger_loop n i value r =
    invoke_all (call_of value <$> take n (drop i (callbacks_with_data r))).
Proof.
  revert i. induction n as [|n IH]; intros i; simpl; [done|].
  destruct (callbacks_with_data r !! i) as [e|] eqn:Hi.
  - rewrite (drop_S _ _ _ Hi). simpl.
    destruct (decide (callback e = NULL)); [done|]. by rewrite IH.
  - rewrite drop_ge; [|by apply lookup_ge_None]. by rewrite take_nil.
Qed.

Lemma data_invoke_all_returns cs :
  Forall (λ c, fn c ≠ NULL) cs → invoke_all cs = Returned cs.
Proof.
  induction 1 as [|c cs Hc _ IH]; simpl; [done|].
  rewrite decide_False by done. by rewrite IH.
Qed.

(** X8: after any series of register_callback_with_data and
    clear_callbacks_with_data calls on the zeroed registry,
    trigger_callbacks_with_data(value) calls, oldest first, the callbacks
    registered since the last clear, each with the user data registered with
    it, leaving out those with a null callback and those offered when 16 were
    registered; it makes no call through a null pointer.  The count is the
    number of these entries, at most 16, and the array keeps its 16
    entries. *)
Theorem data_trigger_in_registration_order (ops : list op) (value : Z) :
  let r := run init ops in
  let es := accepted [] ops in
  callback_with_data_count r = Z.of_nat (length es) ∧
  (length es <= MAX_CALLBACKS)%nat ∧
  length (callbacks_with_data r) = MAX_CALLBACKS ∧
  trigger_callbacks_with_data value r = Returned (call_of value <$> es).
Proof.
  intros r es.
  assert (holds init []) as Hinit.
  { unfold holds. split_and!; [done|done|simpl; lia|done|done]. }
  destruct (data_run_holds ops init [] Hinit) as (Hlen & Hcount & Hcap & Htake & Hnn).
  fold r es in Hlen, Hcount, Hcap, Htake, Hnn.
  split_and!; [done..|].
  unfold trigger_callbacks_with_data.
  rewrite data_trigger_loop_calls, drop_0, Hcount, Nat2Z.id, Htake.
  apply data_invoke_all_returns. by apply Forall_fmap.
Qed.

End data_registry.

(** ** The managed registry: how its operations compose *)
Section managed_composition.
Import Managed.

Implicit Types (r : registry) (s t : managed_callback_t) (i j : nat).

Lemma delete_insert_same {A} (l : list A) i x : delete i (<[i:=x]> l) = delete i l.
Proof.
  rewrite !delete_take_drop. by rewrite take_insert_ge, drop_insert_lt by lia.
Qed.

(** The active slots of a table in which slot [i] is not active. *)
Lemma active_slots_skip r i s :
  managed_callbacks r !! i = Some s → active s = 0 →
  active_slots r = filter (λ s, active s ≠ 0) (delete i (managed_callbacks r)).
Proof.
  intros Hi Hs. unfold active_slots.
  rewrite <- (take_drop_middle _ _ _ Hi) at 1.
  rewrite delete_take_drop, !filter_app, filter_cons.
  by rewrite decide_False by tauto.
Qed.

(** The active slots of a table in which slot [i] is active. *)
Lemma active_slots_middle r i s :
  managed_callbacks r !! i = Some s → active s ≠ 0 →
  active_slots r =
    filter (λ s, active s ≠ 0) (take i (managed_callbacks r)) ++
    s :: filter (λ s, active s ≠ 0) (drop (S i) (managed_callbacks r)).
Proof.
  intros Hi Hs. unfold active_slots.
  rewrite <- (take_drop_middle _ _ _ Hi) at 1.
  rewrite !filter_app, filter_cons. by rewrite decide_True.
Qed.

Lemma length_active_delete r i s :
  managed_callbacks r !! i = Some s → active s ≠ 0 →
  length (active_slots r) =
    S (length (filter (λ s, active s ≠ 0) (delete i (managed_callbacks r)))).
Proof.
  intros Hi Hs. rewrite (active_slots_middle r i s) by done.
  rewrite delete_take_drop, filter_app, !length_app. simpl. lia.
Qed.

Lemma all_active_length r :
  Forall (λ s, active s ≠ 0) (managed_callbacks r) ↔
  length (active_slots r) = length (managed_callbacks r).
Proof.
  unfold active_slots. induction (managed_callbacks r) as [|s l IH]; [done|].
  rewrite filter_cons, Forall_cons. destruct (decide (active s ≠ 0)) as [Hs|Hs]; simpl.
  - rewrite IH. split; [intros [_ ->]; done|]. intros [= ->]. done.
  - pose proof (length_filter (λ s, active s ≠ 0) l). split; [tauto|lia].
Qed.

Lemma register_table_ok cb ud r :
  table_ok r → table_ok (register_managed_callback cb ud r).1.
Proof.
  intros Hlen. pose proof (run_table_ok [Register cb ud] r Hlen) as H.
  rewrite run_register in H. exact H.
Qed.

Lemma unregister_table_ok h r :
  table_ok r → table_ok (unregister_managed_callback h r).
Proof. intros Hlen. exact (run_table_ok [Unregister h] r Hlen). Qed.

Lemma unregister_next_handle h r :
  table_ok r → next_handle (unregister_managed_callback h r) = next_handle r.
Proof.
  intros Hlen. destruct (absent_or_revoked r h) as [Habs|[i Hi]].
  - by rewrite unregister_absent.
  - pose proof Hi as [(s & Hs & _) _]. by rewrite (unregister_at _ _ i s).
Qed.

(** The slot a successful registration fills is the one the revocation of
    its handle stops at. *)
Lemma registered_revoked_at cb ud r i :
  registry_inv r → first_free r i →
  revoked_at (register_managed_callback cb ud r).1 (next_handle r) i.
Proof.
  intros [Hlen _ Hbelow _] Hi. rewrite (register_at _ _ _ i) by done. simpl.
  pose proof Hi as [(s & Hs & _) _].
  split; simpl.
  - eexists. rewrite list_lookup_insert_eq by (by eapply lookup_lt_Some).
    by split_and!.
  - intros j t Hj Ht [_ Hh]. rewrite list_lookup_insert_ne in Ht by lia.
    rewrite Forall_lookup in Hbelow. specialize (Hbelow j t Ht). simpl in *. lia.
Qed.

(** X9: in a table reached before the counter overflows and not full,
    registering a callback and then revoking the handle returned puts back
    the active slots there were, so that a trigger makes the calls it made
    before; the handle counter is not put back. *)
Theorem register_then_unregister (r : registry) (cb ud : Z) :
  registry_inv r →
  (∃ s, s ∈ managed_callbacks r ∧ active s = 0) →
  let r1 := (register_managed_callback cb ud r).1 in
  let h := (register_managed_callback cb ud r).2 in
  active_slots (unregister_managed_callback h r1) = active_slots r ∧
  (∀ value, trigger_managed_callbacks value (unregister_managed_callback h r1) =
            trigger_managed_callbacks value r) ∧
  next_handle (unregister_managed_callback h r1) = wrap32 (next_handle r + 1).
Proof.
  intros Hinv (s0 & Hin & Hs0) r1 h.
  pose proof Hinv as [Hlen _ _ _].
  destruct (full_or_free r) as [Hfull|[i Hi]].
  { rewrite Forall_forall in Hfull. by destruct (Hfull s0 Hin). }
  pose proof (registered_revoked_at cb ud r i Hinv Hi) as Hrev.
  pose proof Hi as [(s & Hs & Hsf) _].
  assert (table_ok r1) as Hlen1 by (by apply register_table_ok).
  assert (h = next_handle r) as Hh.
  { subst h. by rewrite (register_at _ _ _ i). }
  assert (managed_callbacks r1 = <[i := Slot (next_handle r) cb ud 1]> (managed_callbacks r)
          ∧ next_handle r1 = wrap32 (next_handle r + 1)) as [Hr1 Hn1].
  { subst r1. by rewrite (register_at _ _ _ i). }
  fold r1 in Hrev. rewrite Hh.
  assert (active_slots (unregister_managed_callback (next_handle r) r1) = active_slots r)
    as Hact.
  { rewrite (unregister_active_slots _ _ i) by done.
    rewrite Hr1, delete_insert_same. symmetry. by apply (active_slots_skip r i s). }
  split_and!; [done| |].
  - intros value. rewrite !trigger_calls, Hact; [done..|].
    by apply unregister_table_ok.
  - by rewrite unregister_next_handle.
Qed.

Lemma register_then_unregister_witness :
  let r := (run init [Register 101 11; Register 102 12; Unregister 1]).1 in
  registry_inv r ∧ (∃ s, s ∈ managed_callbacks r ∧ active s = 0) ∧
  active_slots (unregister_managed_callback (register_managed_callback 103 13 r).2
                  (register_managed_callback 103 13 r).1) = active_slots r.
Proof.
  assert (registry_inv (run init [Register 101 11; Register 102 12; Unregister 1]).1)
    as Hinv
    by (apply reachable_inv; reflexivity).
  assert (∃ s, s ∈ managed_callbacks
                     (run init [Register 101 11; Register 102 12; Unregister 1]).1
               ∧ active s = 0) as Hfree.
  { exists (Slot 1 101 11 0). split; [|reflexivity]. vm_compute. constructor. }
  split_and!; [done..|].
  by apply (register_then_unregister _ 103 13 Hinv Hfree).
Defined.

(** Deactivating or filling slots with other handles registers no handle. *)
Lemma not_registered_insert r h i s :
  not_registered r h → ¬ (active s ≠ 0 ∧ handle s = h) →
  Forall (λ s, ¬ (active s ≠ 0 ∧ handle s = h)) (<[i:=s]> (managed_callbacks r)).
Proof. intros Hr Hs. by apply Forall_insert. Qed.

Lemma not_registered_run ops r h :
  registry_inv r → next_handle r + registrations ops <= INT32_MAX →
  h < next_handle r → not_registered r h →
  not_registered (run r ops).1 h.
Proof.
  revert r. induction ops as [|[cb ud|h'] ops IH]; intros r Hinv Hmax Hh Hr; [done|..].
  - pose proof (registrations_nonneg ops) as Hn.
    rewrite run_register. cbn [registrations] in Hmax. cbn zeta. cbn [fst].
    pose proof (register_inv cb ud r Hinv ltac:(lia)) as Hinv1.
    pose proof Hinv as [Hlen Hnext _ _].
    destruct (full_or_free r) as [Hfull|[i Hi]].
    + rewrite register_full in * by done. apply IH; [done|simpl; lia|done|done].
    + rewrite (register_at _ _ _ i) in * by done.
      assert (wrap32 (next_handle r + 1) = next_handle r + 1) as Hw.
      { apply wrap32_succ. unfold INT32_MIN. lia. }
      apply IH; [done|simpl; lia|simpl; lia|].
      apply not_registered_insert; [done|]. simpl. lia.
  - cbn [run registrations] in *.
    pose proof Hinv as [Hlen _ _ _].
    apply IH; [by apply unregister_inv|by rewrite unregister_next_handle
              |by rewrite unregister_next_handle|].
    destruct (absent_or_revoked r h') as [Habs|[i Hi]].
    + by rewrite unregister_absent.
    + pose proof Hi as [(s & Hs & _) _].
      rewrite (unregister_at _ _ i s) by done.
      apply not_registered_insert; [done|]. simpl. tauto.
Qed.

(** X10: a handle below the counter (every handle issued so far is) that
    has been revoked stays revoked: whatever registrations and revocations
    follow before the counter overflows, no active slot carries it again, so
    revoking it once more changes nothing and cannot remove a later
    registration that took over its slot. *)
Theorem revoked_handle_stays_revoked (r : registry) (h : Z) (ops : list op) :
  registry_inv r → h < next_handle r →
  next_handle r + registrations ops <= INT32_MAX →
  let r' := (run (unregister_managed_callback h r) ops).1 in
  not_registered r' h ∧
  unregister_managed_callback h r' = r' ∧
  Forall (λ s, handle s ≠ h) (active_slots r').
Proof.
  intros Hinv Hh Hmax r'. pose proof Hinv as [Hlen _ _ Hdist].
  assert (not_registered r' h) as Hgone.
  { apply not_registered_run.
    - by apply unregister_inv.
    - by rewrite unregister_next_handle.
    - by rewrite unregister_next_handle.
    - by apply unregister_gone. }
  split_and!; [done| |].
  - apply unregister_absent; [|done]. by apply run_table_ok, unregister_table_ok.
  - unfold active_slots. apply Forall_forall.
    intros s [Hact Hin]%list_elem_of_filter Heq.
    unfold not_registered in Hgone. rewrite Forall_forall in Hgone.
    by apply (Hgone s Hin).
Qed.

Lemma revoked_handle_stays_revoked_witness :
  let r := (run init [Register 101 11; Register 102 12]).1 in
  let ops := [Register 103 13; Unregister 2; Register 104 14] in
  registry_inv r ∧ 1 < next_handle r ∧
  next_handle r + registrations ops <= INT32_MAX ∧
  unregister_managed_callback 1 (run (unregister_managed_callback 1 r) ops).1 =
    (run (unregister_managed_callback 1 r) ops).1.
Proof.
  assert (registry_inv (run init [Register 101 11; Register 102 12]).1) as Hinv
    by (apply reachable_inv; reflexivity).
  assert (1 < next_handle (run init [Register 101 11; Register 102 12]).1) as Hh
    by compute_done.
  assert (next_handle (run init [Register 101 11; Register 102 12]).1 +
          registrations [Register 103 13; Unregister 2; Register 104 14] <= INT32_MAX)
    as Hmax
    by compute_done.
  split_and!; [done..|].
  by apply (revoked_handle_stays_revoked _ 1 _ Hinv Hh Hmax).
Defined.

Lemma revoked_at_other r h1 h2 i :
  table_ok r → h1 ≠ h2 → revoked_at r h1 i →
  revoked_at (unregister_managed_callback h2 r) h1 i ∧
  managed_callbacks (unregister_managed_callback h2 r) !! i = managed_callbacks r !! i.
Proof.
  intros Hlen Hne Hi.
  destruct (absent_or_revoked r h2) as [Habs|[j Hj]].
  { by rewrite unregister_absent. }
  pose proof Hj as [(t & Ht & Hta & Hth) _].
  pose proof Hi as [(s & Hs & Hsa & Hsh) Hmin].
  rewrite (unregister_at _ _ j t) by done. simpl.
  assert (i ≠ j) as Hij by (intros ->; congruence).
  rewrite list_lookup_insert_ne by done. split; [|done].
  split; simpl.
  - exists s. by rewrite list_lookup_insert_ne.
  - intros k u Hk Hu. destruct (decide (j = k)) as [Hjk|Hjk].
    + subst k. rewrite list_lookup_insert_eq in Hu by (by eapply lookup_lt_Some).
      injection Hu as <-. simpl. tauto.
    + rewrite list_lookup_insert_ne in Hu by done. by eapply Hmin.
Qed.

Lemma not_registered_other r h1 h2 :
  table_ok r → not_registered r h1 →
  not_registered (unregister_managed_callback h2 r) h1.
Proof.
  intros Hlen Habs.
  destruct (absent_or_revoked r h2) as [Habs2|[j Hj]].
  { by rewrite unregister_absent. }
  pose proof Hj as [(t & Ht & _) _].
  rewrite (unregister_at _ _ j t) by done.
  apply not_registered_insert; [done|]. simpl. tauto.
Qed.

(** X11: on a table of 16 slots revocations commute: revoking h1 and then
    h2 leaves the table that revoking h2 and then h1 leaves. *)
Theorem unregister_commutes (r : registry) (h1 h2 : Z) :
  table_ok r →
  unregister_managed_callback h1 (unregister_managed_callback h2 r) =
  unregister_managed_callback h2 (unregister_managed_callback h1 r).
Proof.
  intros Hlen. destruct (decide (h1 = h2)) as [->|Hne]; [done|].
  pose proof (unregister_table_ok h1 r Hlen) as Hlen1.
  pose proof (unregister_table_ok h2 r Hlen) as Hlen2.
  destruct (absent_or_revoked r h1) as [Habs1|[i Hi]].
  { rewrite (unregister_absent h1 r) by done.
    apply unregister_absent; [done|]. by apply not_registered_other. }
  destruct (absent_or_revoked r h2) as [Habs2|[j Hj]].
  { rewrite (unregister_absent h2 r) by done.
    symmetry. apply unregister_absent; [done|]. by apply not_registered_other. }
  pose proof Hi as [(s & Hs & Hsa & Hsh) _].
  pose proof Hj as [(t & Ht & Hta & Hth) _].
  assert (i ≠ j) as Hij by (intros ->; congruence).
  destruct (revoked_at_other r h1 h2 i Hlen Hne Hi) as [Hi2 Hsi2].
  destruct (revoked_at_other r h2 h1 j Hlen (not_eq_sym Hne) Hj) as [Hj1 Htj1].
  rewrite (unregister_at h1 _ i s Hlen2 Hi2) by (by rewrite Hsi2).
  rewrite (unregister_at h2 _ j t Hlen1 Hj1) by (by rewrite Htj1).
  rewrite (unregister_at h1 r i s), (unregister_at h2 r j t) by done. simpl.
  f_equal. by apply list_insert_insert_ne.
Qed.

Lemma unregister_commutes_witness :
  let r := (run init [Register 101 11; Register 102 12; Register 103 13]).1 in
  table_ok r ∧
  unregister_managed_callback 3 (unregister_managed_callback 1 r) =
  unregister_managed_callback 1 (unregister_managed_callback 3 r).
Proof.
  assert (table_ok (run init [Register 101 11; Register 102 12; Register 103 13]).1)
    as Hlen
    by compute_done.
  split; [done|]. by apply (unregister_commutes _ 3 1 Hlen).
Defined.

(** X12: in a table reached before the counter overflows,
    register_managed_callback fails exactly when 16 slots are active; when it
    succeeds one more slot is active, and a revocation that finds its handle
    leaves one less.  Never are more than 16 active. *)
Theorem active_count (r : registry) (cb ud h : Z) :
  registry_inv r →
  ((register_managed_callback cb ud r).2 = -1 ↔
     length (active_slots r) = MAX_CALLBACKS) ∧
  ((register_managed_callback cb ud r).2 ≠ -1 →
     length (active_slots (register_managed_callback cb ud r).1) =
     S (length (active_slots r))) ∧
  (¬ not_registered r h →
     length (active_slots r) =
     S (length (active_slots (unregister_managed_callback h r)))) ∧
  (length (active_slots r) <= MAX_CALLBACKS)%nat.
Proof.
  intros Hinv. pose proof Hinv as [Hlen Hnext _ _].
  split_and!.
  - rewrite register_fails_iff_full by done. rewrite all_active_length.
    by rewrite Hlen.
  - intros Hret. destruct (full_or_free r) as [Hfull|[i Hi]].
    { by rewrite register_full in Hret. }
    pose proof Hi as [(s & Hs & Hsf) _].
    pose proof (register_table_ok cb ud r Hlen) as Hlen1.
    rewrite (register_at _ _ _ i) in * by done.
    rewrite (length_active_delete _ i (Slot (next_handle r) cb ud 1)); simpl.
    + by rewrite delete_insert_same, <- (active_slots_skip r i s).
    + apply list_lookup_insert_eq. by eapply lookup_lt_Some.
    + done.
  - intros Hreg. destruct (absent_or_revoked r h) as [Habs|[i Hi]]; [done|].
    pose proof Hi as [(s & Hs & Hsa & _) _].
    rewrite (unregister_active_slots _ _ i) by done.
    by apply (length_active_delete r i s).
  - rewrite <- Hlen. apply length_filter.
Qed.

Lemma active_count_witness :
  let r := (run init [Register 101 11; Register 102 12]).1 in
  registry_inv r ∧ (register_managed_callback 103 13 r).2 ≠ -1 ∧
  ¬ not_registered r 2 ∧
  length (active_slots (register_managed_callback 103 13 r).1) = 3%nat ∧
  length (active_slots (unregister_managed_callback 2 r)) = 1%nat.
Proof.
  assert (registry_inv (run init [Register 101 11; Register 102 12]).1) as Hinv
    by (apply reachable_inv; reflexivity).
  assert ((register_managed_callback 103 13
             (run init [Register 101 11; Register 102 12]).1).2 ≠ -1) as Hret
    by compute_done.
  assert (¬ not_registered (run init [Register 101 11; Register 102 12]).1 2) as Hreg
    by compute_done.
  assert (length (active_slots (run init [Register 101 11; Register 102 12]).1) = 2%nat)
    as Hnow
    by compute_done.
  destruct (active_count _ 103 13 2 Hinv) as (_ & Hup & Hdown & _).
  split_and!; [done..| |].
  - by rewrite Hup, Hnow.
  - specialize (Hdown Hreg). rewrite Hnow in Hdown. lia.
Defined.

(** The active slots hold callbacks that are not null. *)
Lemma callbacks_given_run ops r :
  table_ok r → callbacks_given ops →
  Forall (λ s, active s ≠ 0 → callback s ≠ NULL) (managed_callbacks r) →
  Forall (λ s, active s ≠ 0 → callback s ≠ NULL) (managed_callbacks (run r ops).1).
Proof.
  revert r. induction ops as [|[cb ud|h] ops IH]; intros r Hlen Hops Hr; [done|..].
  - apply Forall_cons in Hops as [Hcb Hops].
    rewrite run_register. cbn zeta. cbn [fst].
    apply IH; [by apply register_table_ok|done|].
    destruct (full_or_free r) as [Hfull|[i Hi]].
    + by rewrite register_full.
    + rewrite (register_at _ _ _ i) by done. simpl. by apply Forall_insert.
  - apply Forall_cons in Hops as [_ Hops]. cbn [run].
    apply IH; [by apply unregister_table_ok|done|].
    destruct (absent_or_revoked r h) as [Habs|[i Hi]].
    + by rewrite unregister_absent.
    + pose proof Hi as [(s & Hs & _) _].
      rewrite (unregister_at _ _ i s) by done. simpl. by apply Forall_insert.
Qed.

(** X13: when no registration passes a null callback,
    trigger_managed_callbacks makes no call through a null pointer: after any
    series of such registrations and of revocations it makes the calls of all
    active slots, in slot order. *)
Theorem trigger_makes_no_null_call (ops : list op) (value : Z) :
  callbacks_given ops →
  trigger_managed_callbacks value (run init ops).1 =
    Returned (call_of value <$> active_slots (run init ops).1).
Proof.
  intros Hops.
  assert (table_ok init) as Hlen0 by done.
  rewrite trigger_calls by (by apply run_table_ok).
  apply invoke_all_returns, Forall_fmap.
  assert (Forall (λ s, active s ≠ 0 → callback s ≠ NULL) (managed_callbacks init))
    as Hinit.
  { apply Forall_forall. intros t [-> _]%elem_of_replicate Ht. by destruct Ht. }
  pose proof (callbacks_given_run ops init Hlen0 Hops Hinit) as Hall.
  unfold active_slots. apply Forall_forall.
  intros s [Hact Hin]%list_elem_of_filter. simpl.
  rewrite Forall_forall in Hall. by apply Hall.
Qed.

Lemma trigger_makes_no_null_call_witness :
  let ops := [Register 101 11; Register 102 12; Unregister 1; Register 103 13] in
  callbacks_given ops ∧
  trigger_managed_callbacks 7 (run init ops).1 =
    Returned [Call 103 13 7; Call 102 12 7].
Proof.
  assert (callbacks_given [Register 101 11; Register 102 12; Unregister 1;
                           Register 103 13]) as Hops.
  { repeat constructor; discriminate. }
  split; [done|].
  by rewrite (trigger_makes_no_null_call _ 7 Hops).
Defined.

End managed_composition.

(** ** The opaque connection: counting and reporting *)
Section connection_use.
Import Db.
Local Open Scope string_scope.

Implicit Types (c : db_connection) (q : string) (sqls : list (option string)).

Lemma commands_nonneg sqls : 0 <= commands sqls.
Proof. induction sqls as [|[q|] sqls IH]; simpl; lia. Qed.

Lemma db_execute_step c q :
  connected c ≠ 0 →
  ∃ c' out code,
    db_execute (Some c) (Some q) = (Some c', out, code) ∧
    query_count c' = wrap32 (query_count c + 1) ∧
    path c' = path c ∧ connected c' = connected c.
Proof.
  intros Hc. simpl. rewrite decide_False by done.
  destruct (strstr q "ERROR"); by eexists _, _, _.
Qed.

Lemma execute_seq_counts sqls c :
  connected c ≠ 0 → INT32_MIN <= query_count c →
  query_count c + commands sqls <= INT32_MAX →
  query_count (execute_seq c sqls) = query_count c + commands sqls ∧
  path (execute_seq c sqls) = path c ∧
  connected (execute_seq c sqls) = connected c.
Proof.
  revert c. induction sqls as [|[q|] sqls IH]; intros c Hc Hmin Hmax.
  - simpl. split_and!; [lia|done..].
  - pose proof (commands_nonneg sqls) as Hn.
    cbn [execute_seq commands] in *.
    destruct (db_execute_step c q Hc) as (c' & o & code & -> & Hq & Hp & Hcn).
    rewrite wrap32_succ in Hq by lia.
    destruct (IH c') as (Hcount & Hpath & Hconn); [congruence|lia|lia|].
    rewrite Hcount, Hpath, Hconn. split_and!; [lia|done..].
  - cbn [execute_seq commands] in *. simpl. by apply IH.
Qed.

(** X14: on a connection from db_open, after a series of db_execute calls
    whose commands that are not null number at most INT32_MAX, query_count is
    the number of those commands, the failing ones included; the calls with a
    null command count for nothing.  db_close then prints the path given to
    db_open and that number. *)
Theorem query_count_counts_commands (malloc_ok : bool) (p : option string)
    (c : db_connection) (out : list string) (sqls : list (option string)) :
  db_open malloc_ok true p = (Some c, out) →
  commands sqls <= INT32_MAX →
  query_count (execute_seq c sqls) = commands sqls ∧
  ∃ p0, p = Some p0 ∧
        db_close (Some (execute_seq c sqls)) =
          (None, ["[C] Database closed: " ++ p0 ++ " (queries: "
                  ++ pretty (commands sqls) ++ ")" ++ newline]).
Proof.
  intros Hopen Hmax. destruct p as [p0|]; [|done]. simpl in Hopen.
  destruct malloc_ok; [|done]. injection Hopen as <- _.
  destruct (execute_seq_counts sqls (Conn (Some p0) 1 "" 0))
    as (Hcount & Hpath & _); simpl; [done|unfold INT32_MIN; lia|lia|].
  rewrite Z.add_0_l in Hcount. split; [done|].
  exists p0. split; [done|]. unfold db_close. by rewrite Hcount, Hpath.
Qed.

Lemma query_count_counts_commands_witness :
  let sqls := [Some "SELECT 1"; None; Some "DO ERROR"; Some "SELECT 2"] in
  ∃ c out, db_open true true (Some "x") = (Some c, out) ∧
    commands sqls <= INT32_MAX ∧
    query_count (execute_seq c sqls) = 3.
Proof.
  assert (db_open true true (Some "x") =
          (Some (Conn (Some "x") 1 "" 0), (db_open true true (Some "x")).2)) as Ho
    by reflexivity.
  assert (commands [Some "SELECT 1"; None; Some "DO ERROR"; Some "SELECT 2"]
          <= INT32_MAX) as Hmax
    by compute_done.
  exists (Conn (Some "x") 1 "" 0), (db_open true true (Some "x")).2.
  split_and!; [done..|].
  by destruct (query_count_counts_commands true (Some "x") _ _ _ Ho Hmax) as [-> _].
Defined.

(** X15: after db_execute with a command that is not null,
    db_get_last_error tells the code returned: it is empty exactly for
    Success, "Not connected" exactly for InvalidInput and "Simulated query
    error" exactly for ComputationFailed.  A call with a null command
    leaves the message of the call before. *)
Theorem last_error_matches_code (c : db_connection) (q : string) :
  let res := db_execute (Some c) (Some q) in
  (res.2 = SUCCESS ↔ db_get_last_error res.1.1 = "") ∧
  (res.2 = ERROR_INVALID_INPUT ↔ db_get_last_error res.1.1 = "Not connected") ∧
  (res.2 = ERROR_COMPUTATION_FAILED ↔
     db_get_last_error res.1.1 = "Simulated query error") ∧
  db_get_last_error (db_execute (Some c) None).1.1 = db_get_last_error (Some c).
Proof.
  simpl. destruct (decide (connected c = 0)); [|destruct (strstr q "ERROR")];
    simpl; by split_and!.
Qed.

End connection_use.
